(** * Kangaroo distributed search: the DP queue, the DP item and the DP store

    A shallow embedding of the client-side distinguished-point (DP) pipeline
    of the repository ([DPQueue.h], both definitions of the class that the
    file carries, and the [ITEM] declaration of [GPUEngine.h]) together with
    the parts of the system whose code is not among these files (the DP
    store of [HashTable.cpp] and the wire codec of [Network.cpp]), which are
    modelled from the specification and marked as such. *)

From Stdlib Require Import ZArith Lia Bool List.
From stdpp Require Import base list.
Import ListNotations.

Local Open Scope Z_scope.

(** ** Machine integers *)

(** [uint64_t] arithmetic wraps modulo [2^64]. *)
Definition wrap64 (z : Z) : Z := z mod 2 ^ 64.

(** ** GPUEngine.h: the item a lane reports *)

Module GPUEngine.

(** [#define ITEM_SIZE 68  // x(32) + d(24) + idx(8) + padding(4)] *)
Definition ITEM_SIZE : Z := 68.
(** [#define ITEM_SIZE32 (ITEM_SIZE/4)] *)
Definition ITEM_SIZE32 : Z := ITEM_SIZE / 4.

(** [typedef struct { Int x; Int d; uint64_t kIdx; uint64_t h; } ITEM;]
    The big integers [Int] are carried as [Z]. *)
Record ITEM := mkITEM { x : Z; d : Z; kIdx : Z; h : Z }.

End GPUEngine.
Export GPUEngine.

(** ** DPQueue.h

    The file carries two definitions of the class; they differ in
    [pop_batch] only, and share everything else below.  Of the two
    platform branches the pthread one is followed; the [WIN64] branch has
    the same loops around [WaitForSingleObject]. *)

Module DPQueue.

(** [struct DPITEM { ITEM dp; uint32_t threadId; uint32_t gpuId; };] *)
Record DPITEM := mkDPITEM { dp : ITEM; threadId : Z; gpuId : Z }.

(** The private members of the class.  The mutex and the condition
    variable are not data: every function below is one critical section
    (the code between taking and releasing the mutex), and the waits on
    the condition variable are the places where [pop_batch] gives the
    mutex up. *)
Record t := mk {
  queue : list DPITEM;
  shutdown : bool;
  totalPushed : Z;
  totalPopped : Z
}.

(** The constructor. *)
Definition init : t :=
  {| queue := []; shutdown := false; totalPushed := 0; totalPopped := 0 |}.

(** [push]: [queue.push(item); totalPushed++;], then
    [pthread_cond_signal]. *)
Definition push (dp : ITEM) (threadId gpuId : Z) (s : t) : t :=
  let item := mkDPITEM dp threadId gpuId in
  {| queue := queue s ++ [item];
     shutdown := shutdown s;
     totalPushed := wrap64 (totalPushed s + 1);
     totalPopped := totalPopped s |}.

(** The [for] loop of [push_batch]: one [queue.push] per element. *)
Fixpoint push_loop (dps : list ITEM) (threadId gpuId : Z)
    (q : list DPITEM) : list DPITEM :=
  match dps with
  | [] => q
  | dp :: rest => push_loop rest threadId gpuId (q ++ [mkDPITEM dp threadId gpuId])
  end.

(** [push_batch]: returns at once on an empty vector; otherwise pushes
    every element, adds [dps.size()] to [totalPushed] and signals. *)
Definition push_batch (dps : list ITEM) (threadId gpuId : Z) (s : t) : t :=
  match dps with
  | [] => s
  | _ =>
    {| queue := push_loop dps threadId gpuId (queue s);
       shutdown := shutdown s;
       totalPushed := wrap64 (totalPushed s + Z.of_nat (length dps));
       totalPopped := totalPopped s |}
  end.

(** [empty()] and [size()]. *)
Definition empty (s : t) : bool :=
  match queue s with [] => true | _ => false end.
Definition size (s : t) : Z := Z.of_nat (length (queue s)).

(** What a call hands to the condition variable. *)
Inductive notify := Signal | Broadcast.

(** [requestShutdown]: [shutdown = true; pthread_cond_broadcast(&notEmpty);] *)
Definition requestShutdown (s : t) : t * notify :=
  ({| queue := queue s;
      shutdown := true;
      totalPushed := totalPushed s;
      totalPopped := totalPopped s |}, Broadcast).

Definition getTotalPushed (s : t) : Z := totalPushed s.
Definition getTotalPopped (s : t) : Z := totalPopped s.

(** *** The other threads, as seen from a waiting [pop_batch]

    While [pop_batch] sleeps in [pthread_cond_timedwait] the mutex is
    free and the producer lanes (and the thread that shuts the client
    down) run their critical sections. *)
Inductive env_op :=
| EnvPush (dp : ITEM) (threadId gpuId : Z)
| EnvPushBatch (dps : list ITEM) (threadId gpuId : Z)
| EnvShutdown.

Definition env_step (e : env_op) (s : t) : t :=
  match e with
  | EnvPush dp tid gid => push dp tid gid s
  | EnvPushBatch dps tid gid => push_batch dps tid gid s
  | EnvShutdown => fst (requestShutdown s)
  end.

Definition env_run (es : list env_op) (s : t) : t :=
  fold_left (fun acc e => env_step e acc) es s.

(** One return of [pthread_cond_timedwait]: what the other threads did
    while the caller slept, and whether the call came back with
    [ETIMEDOUT].  A wake-up with nothing done is a spurious one.  A call
    of [pop_batch] is run against a finite schedule of such returns; when
    the schedule is used up the next wait runs into its deadline. *)
Record wake := mkWake { during : list env_op; timedout : bool }.

(** The waits a call performed: the wait for the first DP (against the
    deadline computed from [timeout_sec]) and the batching waits with
    their delay in milliseconds. *)
Inductive wait_kind := FirstWait | BatchWait (ms : Z).

(** The three output vectors of [pop_batch]. *)
Record vecs := mkVecs { dps : list ITEM; threadIds : list Z; gpuIds : list Z }.

(** [dps.clear(); threadIds.clear(); gpuIds.clear();] *)
Definition cleared : vecs := mkVecs [] [] [].

Definition push_back (out : vecs) (item : DPITEM) : vecs :=
  mkVecs (dps out ++ [dp item]) (threadIds out ++ [threadId item])
         (gpuIds out ++ [gpuId item]).

(** [while (!queue.empty() && dps.size() < maxCount) { front; pop;
    push_back x3; totalPopped++; }] *)
Fixpoint collect (maxCount : Z) (q : list DPITEM) (out : vecs) (popped : Z)
    : list DPITEM * vecs * Z :=
  match q with
  | [] => (q, out, popped)
  | item :: q' =>
    if Z.of_nat (length (dps out)) <? maxCount
    then collect maxCount q' (push_back out item) (wrap64 (popped + 1))
    else (q, out, popped)
  end.

Definition drain (maxCount : Z) (out : vecs) (s : t) : vecs * t :=
  let '(q, out', popped) := collect maxCount (queue s) out (totalPopped s) in
  (out', {| queue := q; shutdown := shutdown s;
            totalPushed := totalPushed s; totalPopped := popped |}).

(** [while (queue.empty() && !shutdown) { result = timedwait;
    if (result == ETIMEDOUT) return false; }] : [None] is the early
    return, [Some] the schedule left and the state with which the loop
    is left.  The number of waits performed is counted in [n]. *)
Fixpoint wait_first (ws : list wake) (s : t) (n : nat)
    : option (list wake) * t * nat :=
  if empty s && negb (shutdown s) then
    match ws with
    | [] => (None, s, S n)
    | w :: ws' =>
      let s1 := env_run (during w) s in
      if timedout w then (None, s1, S n)
      else wait_first ws' s1 (S n)
    end
  else (Some ws, s, n).

(** What [pop_batch] gives back: the [bool], the three vectors and the
    waits it went through. *)
Record result := mkResult { ret : bool; out : vecs; waits : list wait_kind }.

(** The first definition of the class (no batching window). *)
Module V1.

Definition pop_batch (maxCount : Z) (ws : list wake) (s : t) : result * t :=
  match wait_first ws s 0 with
  | (None, s1, n) => (mkResult false cleared (repeat FirstWait n), s1)
  | (Some _, s1, n) =>
    if shutdown s1 && empty s1
    then (mkResult false cleared (repeat FirstWait n), s1)
    else
      let '(o, s2) := drain maxCount cleared s1 in
      (mkResult (negb (match dps o with [] => true | _ => false end)) o
                (repeat FirstWait n), s2)
  end.

End V1.

(** The second definition of the class (with the batching window). *)
Module V2.

(** [const int batching_delay_ms = 50;] *)
Definition batching_delay_ms : Z := 50.

(** [while (dps.size() < maxCount && !shutdown) { wait 50 ms;
    if (ETIMEDOUT) break; collect; if (dps.size() >= maxCount) break; }] *)
Fixpoint batch_loop (maxCount : Z) (ws : list wake) (o : vecs) (s : t)
    (n : nat) : vecs * t * nat :=
  if (Z.of_nat (length (dps o)) <? maxCount) && negb (shutdown s) then
    match ws with
    | [] => (o, s, S n)
    | w :: ws' =>
      let s1 := env_run (during w) s in
      if timedout w then (o, s1, S n)
      else
        let '(o2, s2) := drain maxCount o s1 in
        if Z.of_nat (length (dps o2)) >=? maxCount then (o2, s2, S n)
        else batch_loop maxCount ws' o2 s2 (S n)
    end
  else (o, s, n).

Definition pop_batch (maxCount : Z) (ws : list wake) (s : t) : result * t :=
  match wait_first ws s 0 with
  | (None, s1, n) => (mkResult false cleared (repeat FirstWait n), s1)
  | (Some ws1, s1, n) =>
    if shutdown s1 && empty s1
    then (mkResult false cleared (repeat FirstWait n), s1)
    else
      let '(o, s2) := drain maxCount cleared s1 in
      let '(o3, s3, m) := batch_loop maxCount ws1 o s2 0 in
      (mkResult (negb (match dps o3 with [] => true | _ => false end)) o3
                (repeat FirstWait n ++ repeat (BatchWait batching_delay_ms) m),
       s3)
  end.

End V2.

(** [pop_batch] as the specification words it: wait up to the timeout
    for the first item; drain up to [maxCount] items; if the batch is
    not yet full, wait [batchingDelay] for more, and repeat until the
    batch is full or the delay elapses; return the batch.  The wait for
    the first item and the collecting loop are those of the class; the
    batching loop is written from the sentence. *)
Module Described.

Fixpoint batch_loop (maxCount : Z) (ws : list wake) (o : vecs) (s : t)
    (n : nat) : vecs * t * nat :=
  if Z.of_nat (length (dps o)) <? maxCount then
    match ws with
    | [] => (o, s, S n)
    | w :: ws' =>
      let s1 := env_run (during w) s in
      if timedout w then (o, s1, S n)
      else
        let '(o2, s2) := drain maxCount o s1 in
        batch_loop maxCount ws' o2 s2 (S n)
    end
  else (o, s, n).

Definition pop_batch (maxCount batchingDelay : Z) (ws : list wake) (s : t)
    : result * t :=
  match wait_first ws s 0 with
  | (None, s1, n) => (mkResult false cleared (repeat FirstWait n), s1)
  | (Some ws1, s1, n) =>
    if shutdown s1 && empty s1
    then (mkResult false cleared (repeat FirstWait n), s1)
    else
      let '(o, s2) := drain maxCount cleared s1 in
      let '(o3, s3, m) := batch_loop maxCount ws1 o s2 0 in
      (mkResult (negb (match dps o3 with [] => true | _ => false end)) o3
                (repeat FirstWait n ++ repeat (BatchWait batchingDelay) m),
       s3)
  end.

End Described.

(** *** The queue as a shared object

    The states a thread can find when it holds the mutex: the state the
    constructor leaves, and whatever one more critical section makes of
    such a state.  The critical sections of the class are [push],
    [push_batch], [requestShutdown] and, in [pop_batch], the collecting
    loop (the two wait loops change nothing while they hold the mutex).
    Any number of producers and consumers may interleave them. *)
Inductive under_lock : t -> Prop :=
| ul_init : under_lock init
| ul_push s dp tid gid : under_lock s -> under_lock (push dp tid gid s)
| ul_push_batch s dps tid gid :
    under_lock s -> under_lock (push_batch dps tid gid s)
| ul_shutdown s : under_lock s -> under_lock (fst (requestShutdown s))
| ul_collect s maxCount o : under_lock s -> under_lock (snd (drain maxCount o s)).

(** The contents of the three output vectors, read back as queue items. *)
Definition items_of (o : vecs) : list DPITEM :=
  zip_with (fun d ids => mkDPITEM d (fst ids) (snd ids))
           (dps o) (zip (threadIds o) (gpuIds o)).

(** The items a producer's critical section appends. *)
Definition pushed_by (e : env_op) : list DPITEM :=
  match e with
  | EnvPush dp tid gid => [mkDPITEM dp tid gid]
  | EnvPushBatch dps tid gid => map (fun dp => mkDPITEM dp tid gid) dps
  | EnvShutdown => []
  end.

(** What the other threads did during the waits a call went through. *)
Definition arrivals (ws : list wake) (r : result) : list env_op :=
  flat_map during (take (length (waits r)) ws).

(** A run of the client: critical sections of the producers and of the
    shutdown path, and calls of [pop_batch] by the network thread, each
    with the schedule of its waits. *)
Inductive op :=
| Env (e : env_op)
| PopBatch (maxCount : Z) (ws : list wake).

(** Everything pushed and everything handed out, in the order in which
    the mutex was taken. *)
Record log := mkLog { pushed : list DPITEM; popped : list DPITEM }.

Section Run.
Variable pop : Z -> list wake -> t -> result * t.

Definition run_op (sl : t * log) (o : op) : t * log :=
  let '(s, l) := sl in
  match o with
  | Env e => (env_step e s, mkLog (pushed l ++ pushed_by e) (popped l))
  | PopBatch maxCount ws =>
    let '(r, s') := pop maxCount ws s in
    (s', mkLog (pushed l ++ flat_map pushed_by (arrivals ws r))
               (popped l ++ items_of (out r)))
  end.

Definition run (ops : list op) (s : t) : t * log :=
  fold_left run_op ops (s, mkLog [] []).
End Run.

(** The items of one producer, told by the ids it pushes under. *)
Definition from (tid gid : Z) (l : list DPITEM) : list DPITEM :=
  filter (fun it => threadId it = tid /\ gpuId it = gid) l.

(** How many elements the collecting loop takes, and what that does to
    [totalPopped]. *)
Definition room (maxCount : Z) (o : vecs) : nat :=
  Z.to_nat (maxCount - Z.of_nat (length (dps o))).

Definition bump (k : nat) (popped : Z) : Z :=
  Nat.iter k (fun p => wrap64 (p + 1)) popped.

(** The three vectors are filled in step. *)
Definition aligned (o : vecs) : Prop :=
  length (threadIds o) = length (dps o) /\ length (gpuIds o) = length (dps o).

(** What one call of [pop_batch] did between the state it found and the
    state it left: [k] waits, and the queue contents moved in order. *)
Definition moved (ws : list wake) (k : nat) (o : vecs) (s : t) (o' : vecs) (s' : t)
    : Prop :=
  aligned o' /\
  items_of o' ++ queue s' =
    items_of o ++ queue s ++ flat_map pushed_by (flat_map during (take k ws)) /\
  (under_lock s -> under_lock s').

(** The schedule says that the [n]-th wait of a call ran into its
    deadline. *)
Definition ran_out (ws : list wake) (n : nat) : Prop :=
  match n with
  | O => False
  | S k => match ws !! k with Some w => timedout w = true | None => True end
  end.

(** What the other threads did during those of the first [k] waits that
    ended with a wake-up ([heard]), and during those that ran into their
    deadline ([missed]).  After a wake-up the caller runs its collecting
    loop; after [ETIMEDOUT] it returns or breaks without collecting. *)
Definition heard (ws : list wake) (k : nat) : list env_op :=
  flat_map during (filter (fun w => timedout w = false) (take k ws)).

Definition missed (ws : list wake) (k : nat) : list env_op :=
  flat_map during (filter (fun w => timedout w = true) (take k ws)).

(** Sample data for the examples: item [n] and a short run in which two
    lanes push, the network thread asks for four items and a further
    push arrives in its batching window. *)
Definition it (n : Z) : ITEM := mkITEM n (n + 100) n 0.

Definition sample_ops : list op :=
  [ Env (EnvPush (it 1) 0 0);
    Env (EnvPushBatch [it 2; it 3] 1 0);
    PopBatch 4 [mkWake [EnvPush (it 4) 0 0] false];
    Env (EnvPush (it 5) 1 0) ].

(** A call that hands out the first [k] queued items without waiting. *)
Definition hand_out (k : nat) (s : t) : result * t :=
  (mkResult (match take k (queue s) with [] => false | _ => true end)
            (mkVecs (map dp (take k (queue s)))
                    (map threadId (take k (queue s)))
                    (map gpuId (take k (queue s))))
            [],
   {| queue := drop k (queue s); shutdown := shutdown s;
      totalPushed := totalPushed s; totalPopped := bump k (totalPopped s) |}).

(** What was handed out and what is still queued is what was pushed. *)
Definition in_order (sl : t * log) : Prop :=
  popped (snd sl) ++ queue (fst sl) = pushed (snd sl).

(** A schedule in which no other thread requests shutdown. *)
Definition no_shutdown (ws : list wake) : Prop :=
  Forall (fun w => Forall (fun e => e <> EnvShutdown) (during w)) ws.

(** Pipeline conservation, as the machine evaluates it. *)
Definition conserved (s : t) : Prop :=
  totalPushed s = wrap64 (totalPopped s + size s).

End DPQueue.

(** ** The DP store (component D of the specification)

    [HashTable.cpp] is not among the files: only the include of
    [HashTable.h] in [DPQueue.h] and the log lines of the debugging guide
    refer to it.  The store is therefore written from section 4.D and the
    data model of the specification. *)

Module DPStore.

Inductive herd := TAME | WILD.

#[global] Instance herd_eq_dec : EqDecision herd.
Proof. solve_decision. Defined.

(** Modelled from the spec: the test "stored.herd == new.herd" of [Add]
    ([HashTable.cpp] is missing). *)
Definition herd_eqb (a b : herd) : bool :=
  match a, b with TAME, TAME | WILD, WILD => true | _, _ => false end.

(** Modelled from the spec: the derivation of the herd, which is done in
    [Thread.cpp] and [HashTable.cpp] ([kType = kIdx % 2] in the server log
    of the debugging guide), neither of them among the files.  "[herd] is derived as [kIdx & 1] (even =
    TAME, odd = WILD)". *)
Definition herd_of (kIdx : Z) : herd :=
  if Z.land kIdx 1 =? 0 then TAME else WILD.

(** Modelled from the spec: the DistinguishedPoint of the data model,
    "{ x: 256-bit; dist: <=192-bit; kIdx: 64-bit; herd derived from kIdx
    parity }".  It is what is left of an [ITEM] once the hash [h], which
    only the lane uses, is dropped. *)
Record DP := mkDP { dp_x : Z; dp_dist : Z; dp_kIdx : Z }.


(** Modelled from the spec: the widths of the three fields of a DP (the
    type [Int] of [SECPK1/Int.h] is missing). *)
Definition well_formed (dp : DP) : Prop :=
  0 <= dp_x dp < 2 ^ 256 /\ 0 <= dp_dist dp < 2 ^ 192 /\ 0 <= dp_kIdx dp < 2 ^ 64.

(** Modelled from the spec: the entry of a HashBucket, "{ x-suffix (the
    bits of x NOT used as the bucket index), dist, herd, kIdx }". *)
Record entry := mkEntry { suffix : Z; e_dist : Z; e_herd : herd; e_kIdx : Z }.

(** Modelled from the spec: the collision event "{ tame, wild }" that
    [Add] raises for the Collision Resolver. *)
Record event := mkEvent { tame : DP; wild : DP }.

(** Modelled from the spec: the DPStore, "a fixed array of 2^H buckets",
    with the counter of same-herd collisions and the channel of collision
    events that [Add] writes to. *)
Record t := mkStore {
  buckets : list (list entry);
  sameHerd : Z;
  events : list event
}.

(** Modelled from the spec: the three results of [Add]. *)
Inductive add_result := ADD_OK | SAME_HERD_DUPLICATE | CROSS_HERD_COLLISION.

(** Modelled from the spec: the comparator of the binary search,
    "lexicographic on the stored x-suffix, most-significant limb first",
    over the four 64-bit limbs of a 256-bit value. *)
Definition limb (i : Z) (v : Z) : Z := Z.land (Z.shiftr v (64 * i)) (Z.ones 64).

(** Modelled from the spec: one step of the lexicographic order of the
    comparator of [HashTable.cpp]. *)
Definition lex (c1 c2 : comparison) : comparison :=
  match c1 with Eq => c2 | _ => c1 end.

(** Modelled from the spec: the comparator of [HashTable.cpp] itself,
    limb 3 (the most significant) first. *)
Definition compare_x (a b : Z) : comparison :=
  lex (limb 3 a ?= limb 3 b)
    (lex (limb 2 a ?= limb 2 b)
       (lex (limb 1 a ?= limb 1 b) (limb 0 a ?= limb 0 b))).

(** Modelled from the spec: what the search of a bucket in
    [HashTable::Add] arrives at, the entry with the key and its index, or
    the index at which the key belongs. *)
Inductive slot := Found (pos : nat) (e : entry) | Absent (pos : nat).

(** Modelled from the spec: "Searches the bucket by binary search on
    x-suffix", between the indices [lo] (included) and [hi] (excluded).
    Every step halves the interval; [fuel] bounds the number of steps. *)
Fixpoint bsearch (fuel : nat) (b : list entry) (key : Z) (lo hi : nat) : slot :=
  match fuel with
  | O => Absent lo
  | S fuel' =>
    if (hi <=? lo)%nat then Absent lo
    else
      let mid := ((lo + hi) / 2)%nat in
      match b !! mid with
      | None => Absent lo
      | Some e =>
        match compare_x key (suffix e) with
        | Eq => Found mid e
        | Lt => bsearch fuel' b key lo mid
        | Gt => bsearch fuel' b key (S mid) hi
        end
      end
  end.

(** Modelled from the spec: the search of a whole bucket, as [Add] of
    [HashTable.cpp] starts it. *)
Definition search (b : list entry) (key : Z) : slot :=
  bsearch (length b) b key 0 (length b).

(** Modelled from the spec: the insertion of [HashTable::Add], "entry
    inserted at the sorted position". *)
Definition insert_at (pos : nat) (e : entry) (b : list entry) : list entry :=
  take pos b ++ e :: drop pos b.

(** Modelled from the spec: the same-herd update of [HashTable::Add],
    "overwrite with the shorter distance". *)
Definition shorter (e : entry) (dist : Z) : entry :=
  mkEntry (suffix e) (Z.min (e_dist e) dist) (e_herd e) (e_kIdx e).

Section WithBuckets.

(** The number of bits of x that select the bucket ("H ~ 18-22"). *)
Variable H : nat.

(** The number of bits of x kept in the entry. *)
Definition sbits : Z := Z.of_nat (256 - H).

(** Modelled from the spec: the hash of [HashTable.cpp],
    "bucketIdx := high-H-bits(x)". *)
Definition bucketIdx (xv : Z) : nat := Z.to_nat (Z.shiftr (xv mod 2 ^ 256) sbits).

(** Modelled from the spec: the part of x an entry of [HashTable.cpp]
    keeps, "the low bits stored inside the entry". *)
Definition suffix_of (xv : Z) : Z := Z.land xv (Z.ones sbits).

(** Modelled from the spec: the store [HashTable.cpp] starts from, 2^H
    empty buckets. *)
Definition empty_store : t := mkStore (replicate (2 ^ H) []) 0 [].

(** The stored entry, read back as the DP it came from. *)
Definition stored_dp (xv : Z) (e : entry) : DP := mkDP xv (e_dist e) (e_kIdx e).

(** Modelled from the spec: the insert operation [Add(dp)] of section
    4.D.  No x-match: the entry is inserted at its sorted position
    (ADD_OK).  x-match with the same herd: nothing happens when the
    distances are equal, otherwise the same-herd counter is incremented
    and the shorter distance is kept (SAME_HERD_DUPLICATE).  x-match
    with the other herd: the event { tame, wild } is emitted
    (CROSS_HERD_COLLISION); the specification gives this case no effect
    on the stored entries. *)
Definition Add (dp : DP) (st : t) : add_result * t :=
  let hd := herd_of (dp_kIdx dp) in
  let idx := bucketIdx (dp_x dp) in
  let key := suffix_of (dp_x dp) in
  match buckets st !! idx with
  | None => (ADD_OK, st)
  | Some b =>
    match search b key with
    | Absent pos =>
      let e := mkEntry key (dp_dist dp) hd (dp_kIdx dp) in
      (ADD_OK,
       mkStore (<[idx := insert_at pos e b]> (buckets st)) (sameHerd st) (events st))
    | Found pos e =>
      if herd_eqb (e_herd e) hd then
        if e_dist e =? dp_dist dp then (SAME_HERD_DUPLICATE, st)
        else
          (SAME_HERD_DUPLICATE,
           mkStore (<[idx := <[pos := shorter e (dp_dist dp)]> b]> (buckets st))
                   (sameHerd st + 1) (events st))
      else
        let old := stored_dp (dp_x dp) e in
        let ev := match hd with
                  | TAME => mkEvent dp old
                  | WILD => mkEvent old dp
                  end in
        (CROSS_HERD_COLLISION,
         mkStore (buckets st) (sameHerd st) (events st ++ [ev]))
    end
  end.

(** The x of the examples (bucket 2 of 4, suffix 12345). *)
Definition X : Z := 2 ^ 255 + 12345.

(** A sequence of Adds. *)
Definition Adds (dps : list DP) (st : t) : t :=
  fold_left (fun acc dp => snd (Add dp acc)) dps st.

(** The entry the store holds for an x. *)
Definition holds (st : t) (xv : Z) (e : entry) : Prop :=
  exists b, buckets st !! bucketIdx xv = Some b /\ e ∈ b /\ suffix e = suffix_of xv.

(** The HashBucket invariant: "entries in a bucket are kept sorted by
    x-suffix"; the suffix has the bits the bucket index leaves, and the
    herd tag is the parity of the stored kIdx. *)
Definition sorted (b : list entry) : Prop :=
  forall i j ei ej, b !! i = Some ei -> b !! j = Some ej -> (i < j)%nat ->
    suffix ei < suffix ej.

Definition entry_ok (e : entry) : Prop :=
  0 <= suffix e < 2 ^ sbits /\ e_herd e = herd_of (e_kIdx e).

Definition bucket_ok (b : list entry) : Prop :=
  sorted b /\ Forall entry_ok b.

Definition wf (st : t) : Prop :=
  length (buckets st) = (2 ^ H)%nat /\ Forall bucket_ok (buckets st).

(** The entry [Add] makes of a DP, and the event it raises against a
    stored entry. *)
Definition entry_of (dp : DP) : entry :=
  mkEntry (suffix_of (dp_x dp)) (dp_dist dp) (herd_of (dp_kIdx dp)) (dp_kIdx dp).

Definition event_of (dp : DP) (e : entry) : event :=
  match herd_of (dp_kIdx dp) with
  | TAME => mkEvent dp (stored_dp (dp_x dp) e)
  | WILD => mkEvent (stored_dp (dp_x dp) e) dp
  end.

(** The contract of [Add] in terms of what the bucket of the DP holds:
    the four cases of section 4.D, with the result and the store each
    of them leaves. *)
Inductive contract (dp : DP) (st : t) : add_result -> t -> Prop :=
| add_ok b b' :
    buckets st !! bucketIdx (dp_x dp) = Some b ->
    (forall e, e ∈ b -> suffix e <> suffix_of (dp_x dp)) ->
    bucket_ok b' ->
    (forall e', e' ∈ b' <-> e' = entry_of dp \/ e' ∈ b) ->
    contract dp st ADD_OK
      (mkStore (<[bucketIdx (dp_x dp) := b']> (buckets st)) (sameHerd st) (events st))
| add_true_duplicate b e :
    buckets st !! bucketIdx (dp_x dp) = Some b ->
    e ∈ b -> suffix e = suffix_of (dp_x dp) ->
    e_herd e = herd_of (dp_kIdx dp) -> e_dist e = dp_dist dp ->
    contract dp st SAME_HERD_DUPLICATE st
| add_same_herd b b' e :
    buckets st !! bucketIdx (dp_x dp) = Some b ->
    e ∈ b -> suffix e = suffix_of (dp_x dp) ->
    e_herd e = herd_of (dp_kIdx dp) -> e_dist e <> dp_dist dp ->
    bucket_ok b' ->
    (forall e', e' ∈ b' <->
                e' = shorter e (dp_dist dp) \/
                (e' ∈ b /\ suffix e' <> suffix_of (dp_x dp))) ->
    (shorter e (dp_dist dp) = e -> b' = b) ->
    contract dp st SAME_HERD_DUPLICATE
      (mkStore (<[bucketIdx (dp_x dp) := b']> (buckets st)) (sameHerd st + 1)
               (events st))
| add_cross_herd b e :
    buckets st !! bucketIdx (dp_x dp) = Some b ->
    e ∈ b -> suffix e = suffix_of (dp_x dp) ->
    e_herd e <> herd_of (dp_kIdx dp) ->
    contract dp st CROSS_HERD_COLLISION
      (mkStore (buckets st) (sameHerd st) (events st ++ [event_of dp e])).

(** The herd of the entry the store holds for an x, if it holds one. *)
Definition herd_held (st : t) (xv : Z) (h : option herd) : Prop :=
  match h with
  | None => forall e, ~ holds st xv e
  | Some h0 => exists e, holds st xv e /\ e_herd e = h0
  end.

(** Collision events name the tame DP as [tame] and the wild one as
    [wild]. *)
Definition event_ok (ev : event) : Prop :=
  herd_of (dp_kIdx (tame ev)) = TAME /\ herd_of (dp_kIdx (wild ev)) = WILD /\
  dp_x (wild ev) = dp_x (tame ev).

(** The collision events raised for an x. *)
Definition events_for (xv : Z) (st : t) : list event :=
  filter (fun ev => dp_x (tame ev) = xv) (events st).

(** The number of DPs of a sequence that meet a stored entry of the
    other herd for [xv]: [h] is the herd stored for [xv], if any. *)
Fixpoint cross_count (xv : Z) (h : option herd) (dps : list DP) : nat :=
  match dps with
  | [] => 0
  | dp :: rest =>
    if dp_x dp =? xv then
      match h with
      | None => cross_count xv (Some (herd_of (dp_kIdx dp))) rest
      | Some h0 =>
        ((if herd_eqb h0 (herd_of (dp_kIdx dp)) then 0 else 1)
         + cross_count xv h rest)%nat
      end
    else cross_count xv h rest
  end.

End WithBuckets.

End DPStore.

(** ** The stored entry after a cross-herd match

    Of the third case of [Add], section 4.D says only that the event
    { tame, wild } is emitted; what becomes of the entry stored for the x
    is left open.  [DPStore.Add] takes the contract at its word and
    leaves the entry in place.  The data model ("no two entries with the
    same full x") allows other readings, in which the new DP takes the
    place of the stored one, or the entry is dropped once the match is
    reported.  [AddWith] is [Add] with that choice as a parameter, so
    that what is proved of it holds whichever reading [HashTable.cpp],
    which is not among the files, follows. *)

Module CrossHerd.
Import DPStore.

(** Modelled from the spec: what a cross-herd match leaves stored for
    the x, given the stored entry and the new DP: the distance and the
    kIdx of the entry kept, or nothing. *)
Definition policy : Type := entry -> DP -> option (Z * Z).



(** The entry is dropped with the report of the match. *)
Definition drop_entry : policy := fun _ _ => None.



Section WithBuckets.

Variable H : nat.
Variable g : policy.



End WithBuckets.





End CrossHerd.

(** ** The wire format of DPs (section 6 of the specification)

    [Network.cpp], which serialises the DPs, is not among the files; of
    the code only the size of an item, [ITEM_SIZE], is there.
    The codec is written from the message table and the invariants of
    section 6. *)

Module Wire.
Import DPStore.

(** A byte is a number below 256. *)
Definition is_byte (b : Z) : Prop := 0 <= b < 256.

(** Modelled from the spec: the byte order of [Network.cpp], "big-endian
    on the wire": the [n] bytes of [v], most significant first. *)
Fixpoint be_bytes (n : nat) (v : Z) : list Z :=
  match n with
  | O => []
  | S k => (v / 256 ^ Z.of_nat k) mod 256 :: be_bytes k v
  end.

(** Modelled from the spec: the reading side of [Network.cpp], the number
    a big-endian byte string spells. *)
Definition of_be (bs : list Z) : Z := fold_left (fun acc b => acc * 256 + b) bs 0.

(** Modelled from the spec: "x is transmitted MSB-first as four 64-bit
    limbs in limb-big-endian order". *)
Definition encode_x (xv : Z) : list Z :=
  be_bytes 8 (limb 3 xv) ++ be_bytes 8 (limb 2 xv)
    ++ be_bytes 8 (limb 1 xv) ++ be_bytes 8 (limb 0 xv).

(** Modelled from the spec: the reading of x in [Network.cpp], four
    limbs of 8 bytes, most significant first. *)
Definition decode_x (bs : list Z) : Z :=
  of_be (take 8 bs) * 2 ^ 192 + of_be (take 8 (drop 8 bs)) * 2 ^ 128
    + of_be (take 8 (drop 16 bs)) * 2 ^ 64 + of_be (take 8 (drop 24 bs)).

(** Modelled from the spec: the "pad(4)" of a DP entry written by
    [Network.cpp]; its value is not given and is taken as zero. *)
Definition pad : list Z := [0; 0; 0; 0].

(** Modelled from the spec: the DP entry of a DP_BATCH,
    "{ x(32), dist(24), kIdx(8), pad(4) } = 68 bytes/DP". *)
Definition encode_dp (dp : DP) : list Z :=
  encode_x (dp_x dp) ++ be_bytes 24 (dp_dist dp) ++ be_bytes 8 (dp_kIdx dp) ++ pad.

(** Modelled from the spec: the reading of a DP entry in [Network.cpp],
    68 bytes or nothing. *)
Definition decode_dp (bs : list Z) : option DP :=
  if (length bs =? Z.to_nat ITEM_SIZE)%nat then
    Some (mkDP (decode_x (take 32 bs))
               (of_be (take 24 (drop 32 bs)))
               (of_be (take 8 (drop 56 bs))))
  else None.

(** Modelled from the spec: "FRAME := MSG_TYPE(1) | LENGTH(4) |
    PAYLOAD(LENGTH)" and the payload of "0x01 DP_BATCH": "COUNT(4) then
    COUNT x { x(32), dist(24), kIdx(8), pad(4) }". *)
Definition MSG_DP_BATCH : Z := 1.

(** Modelled from the spec: the payload and the frame of a DP_BATCH as
    [Network.cpp] sends them. *)
Definition batch_payload (dps : list DP) : list Z :=
  be_bytes 4 (Z.of_nat (length dps)) ++ flat_map encode_dp dps.

Definition encode_batch (dps : list DP) : list Z :=
  [MSG_DP_BATCH] ++ be_bytes 4 (Z.of_nat (length (batch_payload dps)))
    ++ batch_payload dps.

(** The header fields of a frame, read back. *)
Definition frame_type (bs : list Z) : option Z := bs !! 0%nat.
Definition frame_length (bs : list Z) : Z := of_be (take 4 (drop 1 bs)).
Definition frame_count (bs : list Z) : Z := of_be (take 4 (drop 5 bs)).


End Wire.

(** ** The way of a DP from the kangaroo to the store

    Of the code on this way only the queue is among the files.  The
    kangaroo and the step that emits its DP are written from the data
    model and section 4.B of the specification ([Kangaroo.cpp] and the
    kernel of [GPUEngine.cu] are missing), the item a launch reports
    from the [ITEM] of [GPUEngine.h], and the server side from sections
    4.D and 6. *)

Module Pipeline.
Import DPQueue DPStore Wire.








End Pipeline.

(** ** Further terms for the queue *)

Module DPQueueTerms.
Import DPQueue.

(** [k] items went from the queue to the vectors, each counted once. *)
Definition took (k : nat) (o : vecs) (s : t) (o' : vecs) (s' : t) : Prop :=
  length (dps o') = (length (dps o) + k)%nat /\
  totalPopped s' = bump k (totalPopped s).

(** A schedule during which no other thread touches the queue: timeouts
    and spurious wake-ups only. *)
Definition quiet (ws : list wake) : Prop := Forall (fun w => during w = []) ws.

(** The vectors a call fills from the items [l]. *)
Definition vecs_of (l : list DPITEM) : vecs :=
  mkVecs (map dp l) (map threadId l) (map gpuId l).

End DPQueueTerms.

(** ** Facts about the queue operations *)

Module DPQueueFacts.
Import DPQueue.

Lemma wrap64_add_l a b : wrap64 (wrap64 a + b) = wrap64 (a + b).
Proof. unfold wrap64. apply Zplus_mod_idemp_l. Qed.

Lemma wrap64_add_r a b : wrap64 (a + wrap64 b) = wrap64 (a + b).
Proof. unfold wrap64. apply Zplus_mod_idemp_r. Qed.

Lemma wrap64_idem a : wrap64 (wrap64 a) = wrap64 a.
Proof. unfold wrap64. apply Z.mod_mod. lia. Qed.

Lemma wrap64_small a : 0 <= a < 2 ^ 64 -> wrap64 a = a.
Proof. intros. unfold wrap64. apply Z.mod_small. assumption. Qed.

Lemma wrap64_range a : 0 <= wrap64 a < 2 ^ 64.
Proof. unfold wrap64. apply Z.mod_pos_bound. lia. Qed.

(** The loop of [push_batch] appends the batch, in order. *)
Lemma push_loop_app dps tid gid q :
  push_loop dps tid gid q = q ++ map (fun dp => mkDPITEM dp tid gid) dps.
Proof.
  revert q. induction dps as [|dp rest IH]; intros q; simpl.
  - now rewrite app_nil_r.
  - rewrite IH, <- app_assoc. reflexivity.
Qed.

Lemma bump_wrap k p : wrap64 (bump k p) = wrap64 (p + Z.of_nat k).
Proof.
  induction k as [|k IH].
  - simpl. now rewrite Z.add_0_r.
  - change (bump (S k) p) with (wrap64 (bump k p + 1)).
    rewrite wrap64_idem, <- wrap64_add_l, IH, wrap64_add_l.
    f_equal. lia.
Qed.

Lemma bump_succ_r k p : bump (S k) p = bump k (wrap64 (p + 1)).
Proof. unfold bump. now rewrite Nat.iter_succ_r. Qed.

Lemma dps_push_back o item : dps (push_back o item) = dps o ++ [dp item].
Proof. reflexivity. Qed.

Lemma collect_spec maxCount q : forall o popped,
  collect maxCount q o popped =
    (let k := Nat.min (length q) (room maxCount o) in
     (drop k q, fold_left push_back (take k q) o, bump k popped)).
Proof.
  induction q as [|item q IH]; intros o popped.
  - reflexivity.
  - cbn [collect]. destruct (Z.ltb_spec (Z.of_nat (length (dps o))) maxCount) as [Hlt|Hge].
    + rewrite IH. unfold room. rewrite dps_push_back, length_app. cbn [length].
      replace (Z.to_nat (maxCount - Z.of_nat (length (dps o))))
        with (S (Z.to_nat (maxCount - Z.of_nat (length (dps o) + 1)))) by lia.
      cbn [Nat.min length drop take fold_left]. cbv zeta.
      now rewrite bump_succ_r.
    + unfold room. replace (Z.to_nat (maxCount - Z.of_nat (length (dps o)))) with 0%nat by lia.
      rewrite Nat.min_0_r. reflexivity.
Qed.

(** *** The critical sections, one by one *)

Lemma drain_spec maxCount o s :
  drain maxCount o s =
    (let k := Nat.min (length (queue s)) (room maxCount o) in
     (fold_left push_back (take k (queue s)) o,
      {| queue := drop k (queue s); shutdown := shutdown s;
         totalPushed := totalPushed s;
         totalPopped := bump k (totalPopped s) |})).
Proof. unfold drain. now rewrite collect_spec. Qed.

Lemma fold_push_back_dps l : forall o,
  dps (fold_left push_back l o) = dps o ++ map dp l.
Proof.
  induction l as [|it l IH]; intros o; simpl.
  - now rewrite app_nil_r.
  - rewrite IH. simpl. now rewrite <- app_assoc.
Qed.

Lemma fold_push_back_threadIds l : forall o,
  threadIds (fold_left push_back l o) = threadIds o ++ map threadId l.
Proof.
  induction l as [|it l IH]; intros o; simpl.
  - now rewrite app_nil_r.
  - rewrite IH. simpl. now rewrite <- app_assoc.
Qed.

Lemma fold_push_back_gpuIds l : forall o,
  gpuIds (fold_left push_back l o) = gpuIds o ++ map gpuId l.
Proof.
  induction l as [|it l IH]; intros o; simpl.
  - now rewrite app_nil_r.
  - rewrite IH. simpl. now rewrite <- app_assoc.
Qed.

Lemma aligned_cleared : aligned cleared.
Proof. split; reflexivity. Qed.

Lemma aligned_fold l o : aligned o -> aligned (fold_left push_back l o).
Proof.
  intros [H1 H2]. unfold aligned.
  rewrite fold_push_back_dps, fold_push_back_threadIds, fold_push_back_gpuIds.
  rewrite !length_app, !length_map. lia.
Qed.

Lemma items_of_push_back o it :
  aligned o -> items_of (push_back o it) = items_of o ++ [it].
Proof.
  intros [H1 H2]. unfold items_of, push_back. cbn [dps threadIds gpuIds].
  rewrite zip_with_app by lia.
  rewrite zip_with_app by (rewrite length_zip_with; lia).
  destruct it; reflexivity.
Qed.

Lemma items_of_fold l : forall o,
  aligned o -> items_of (fold_left push_back l o) = items_of o ++ l.
Proof.
  induction l as [|it l IH]; intros o Ho; simpl.
  - now rewrite app_nil_r.
  - rewrite IH.
    + rewrite items_of_push_back by assumption. now rewrite <- app_assoc.
    + change (push_back o it) with (fold_left push_back [it] o).
      now apply aligned_fold.
Qed.

Lemma drain_aligned maxCount o s : aligned o -> aligned (fst (drain maxCount o s)).
Proof. intros Ho. rewrite drain_spec. cbn. now apply aligned_fold. Qed.

(** The collecting loop moves a prefix of the queue to the end of the
    output vectors and leaves the rest of the state alone. *)
Lemma drain_fifo maxCount o s :
  aligned o ->
  items_of (fst (drain maxCount o s)) ++ queue (snd (drain maxCount o s))
    = items_of o ++ queue s.
Proof.
  intros Ho. rewrite drain_spec. cbn.
  rewrite items_of_fold by assumption.
  now rewrite <- app_assoc, take_drop.
Qed.

Lemma drain_shutdown maxCount o s : shutdown (snd (drain maxCount o s)) = shutdown s.
Proof. now rewrite drain_spec. Qed.

Lemma env_step_queue e s : queue (env_step e s) = queue s ++ pushed_by e.
Proof.
  destruct e as [dp tid gid|l tid gid|]; simpl.
  - reflexivity.
  - unfold push_batch. destruct l as [|a l]; [now rewrite app_nil_r|].
    cbn [queue]. now rewrite push_loop_app.
  - now rewrite app_nil_r.
Qed.

Lemma env_run_queue es : forall s,
  queue (env_run es s) = queue s ++ flat_map pushed_by es.
Proof.
  induction es as [|e es IH]; intros s.
  - simpl. now rewrite app_nil_r.
  - change (env_run (e :: es) s) with (env_run es (env_step e s)).
    rewrite IH, env_step_queue. simpl. now rewrite <- app_assoc.
Qed.

Lemma env_run_app es1 es2 s : env_run (es1 ++ es2) s = env_run es2 (env_run es1 s).
Proof. unfold env_run. apply fold_left_app. Qed.

(** *** States under the mutex *)

Lemma under_lock_env_step e s : under_lock s -> under_lock (env_step e s).
Proof. destruct e; simpl; intros; now constructor. Qed.

Lemma under_lock_env_run es : forall s, under_lock s -> under_lock (env_run es s).
Proof.
  induction es as [|e es IH]; intros s Hs; [assumption|].
  change (env_run (e :: es) s) with (env_run es (env_step e s)).
  apply IH. now apply under_lock_env_step.
Qed.

Lemma under_lock_drain maxCount o s : under_lock s -> under_lock (snd (drain maxCount o s)).
Proof. now constructor. Qed.

(** *** The two wait loops *)

(** The wait for the first DP: it went through [k] waits, the other
    threads' critical sections of those waits are all that happened to
    the state, and when the loop is left in the ordinary way its
    condition is false. *)
Lemma wait_first_spec ws : forall s n res s1 n',
  wait_first ws s n = (res, s1, n') ->
  exists k : nat,
    n' = (n + k)%nat /\
    s1 = env_run (flat_map during (take k ws)) s /\
    match res with
    | Some ws1 => ws1 = drop k ws /\ (k <= length ws)%nat /\
                  empty s1 && negb (shutdown s1) = false
    | None => (1 <= k)%nat
    end.
Proof.
  induction ws as [|w ws IH]; intros s n res s1 n' H; cbn [wait_first] in H.
  - destruct (empty s && negb (shutdown s)) eqn:Hc; inversion H; subst.
    + exists 1%nat. repeat split; [lia|lia].
    + exists 0%nat. repeat split; [lia|lia|assumption].
  - destruct (empty s && negb (shutdown s)) eqn:Hc.
    + destruct (timedout w) eqn:Ht.
      * inversion H; subst. exists 1%nat. cbn. rewrite app_nil_r.
        repeat split; lia.
      * apply IH in H as (k & -> & -> & Hres).
        exists (S k). cbn [take flat_map]. rewrite env_run_app.
        split; [lia|]. split; [reflexivity|].
        destruct res as [ws1|]; [|lia].
        destruct Hres as (-> & Hk & Hc'). cbn [drop length]. repeat split; [lia|assumption].
    + inversion H; subst. exists 0%nat. repeat split; [lia|cbn; lia|assumption].
Qed.

Lemma moved_refl ws o s : aligned o -> moved ws 0 o s o s.
Proof.
  intros Ho. split; [assumption|]. split; [|auto].
  cbn. now rewrite app_nil_r.
Qed.

Lemma moved_timeout w ws o s :
  aligned o -> moved (w :: ws) 1 o s o (env_run (during w) s).
Proof.
  intros Ho. split; [assumption|]. split.
  - cbn. rewrite !app_nil_r. now rewrite env_run_queue.
  - apply under_lock_env_run.
Qed.

Lemma moved_wake maxCount w ws o s :
  aligned o ->
  moved (w :: ws) 1 o s (fst (drain maxCount o (env_run (during w) s)))
                        (snd (drain maxCount o (env_run (during w) s))).
Proof.
  intros Ho. split; [now apply drain_aligned|]. split.
  - rewrite drain_fifo by assumption. cbn. rewrite !app_nil_r.
    now rewrite env_run_queue.
  - intros Hs. apply under_lock_drain. now apply under_lock_env_run.
Qed.

Lemma moved_step w ws k o s o1 s1 o2 s2 :
  moved (w :: ws) 1 o s o1 s1 -> moved ws k o1 s1 o2 s2 ->
  moved (w :: ws) (S k) o s o2 s2.
Proof.
  intros (Ha & Hf & Hu) (Ha' & Hf' & Hu'). split; [assumption|]. split; [|auto].
  rewrite Hf', app_assoc, Hf. cbn. rewrite !app_nil_r, !flat_map_app.
  now rewrite <- !app_assoc.
Qed.

Lemma batch_loop_spec maxCount ws : forall o s n o' s' n',
  V2.batch_loop maxCount ws o s n = (o', s', n') ->
  aligned o ->
  exists k : nat, n' = (n + k)%nat /\ moved ws k o s o' s'.
Proof.
  induction ws as [|w ws IH]; intros o s n o' s' n' H Ho; cbn [V2.batch_loop] in H.
  - destruct (_ && _); inversion H; subst.
    + exists 1%nat. split; [lia|]. now apply (moved_refl [] o' s').
    + exists 0%nat. split; [lia|]. now apply moved_refl.
  - destruct (_ && _).
    + destruct (timedout w) eqn:Ht.
      * inversion H; subst. exists 1%nat. split; [lia|]. now apply moved_timeout.
      * pose proof (moved_wake maxCount w ws o s Ho) as Hm.
        destruct (drain maxCount o (env_run (during w) s)) as [o2 s2].
        cbn [fst snd] in Hm.
        destruct (Z.of_nat (length (dps o2)) >=? maxCount).
        -- inversion H; subst. exists 1%nat. split; [lia|assumption].
        -- apply IH in H as (k & -> & Hm'); [|apply Hm].
           exists (S k). split; [lia|]. eapply moved_step; eassumption.
    + inversion H; subst. exists 0%nat. split; [lia|]. now apply moved_refl.
Qed.

Lemma moved_env ws k s :
  moved ws k cleared s cleared (env_run (flat_map during (take k ws)) s).
Proof.
  split; [apply aligned_cleared|]. split.
  - cbn. now rewrite env_run_queue.
  - apply under_lock_env_run.
Qed.

Lemma moved_seq ws k1 k2 o s o1 s1 o2 s2 :
  moved ws k1 o s o1 s1 -> moved (drop k1 ws) k2 o1 s1 o2 s2 ->
  moved ws (k1 + k2) o s o2 s2.
Proof.
  intros (Ha & Hf & Hu) (Ha' & Hf' & Hu'). split; [assumption|]. split; [|auto].
  rewrite Hf', app_assoc, Hf, <- take_take_drop, !flat_map_app.
  now rewrite <- !app_assoc.
Qed.

Lemma moved_drain maxCount ws o s :
  aligned o -> moved ws 0 o s (fst (drain maxCount o s)) (snd (drain maxCount o s)).
Proof.
  intros Ho. split; [now apply drain_aligned|]. split.
  - rewrite drain_fifo by assumption. cbn. now rewrite app_nil_r.
  - apply under_lock_drain.
Qed.

Lemma length_waits n m ms :
  length (repeat FirstWait n ++ repeat (BatchWait ms) m) = (n + m)%nat.
Proof. now rewrite length_app, !repeat_length. Qed.

(** One call of the first definition. *)
Lemma pop_batch_v1_moved maxCount ws s :
  moved ws (length (waits (fst (V1.pop_batch maxCount ws s)))) cleared s
        (out (fst (V1.pop_batch maxCount ws s))) (snd (V1.pop_batch maxCount ws s)).
Proof.
  unfold V1.pop_batch.
  destruct (wait_first ws s 0) as [[res s1] n] eqn:Hw.
  apply wait_first_spec in Hw as (k & -> & -> & Hres). cbn [Nat.add].
  destruct res as [ws1|].
  - destruct (shutdown _ && empty _).
    + cbn [fst snd out waits]. rewrite repeat_length. apply moved_env.
    + pose proof (moved_drain maxCount (drop k ws) cleared
                    (env_run (flat_map during (take k ws)) s) aligned_cleared) as Hd.
      destruct (drain maxCount cleared _) as [o s2]. cbn [fst snd out waits]. rewrite repeat_length.
      replace k with (k + 0)%nat by lia.
      eapply moved_seq; [apply moved_env|exact Hd].
  - cbn [fst snd out waits]. rewrite repeat_length. apply moved_env.
Qed.

(** One call of the second definition. *)
Lemma pop_batch_v2_moved maxCount ws s :
  moved ws (length (waits (fst (V2.pop_batch maxCount ws s)))) cleared s
        (out (fst (V2.pop_batch maxCount ws s))) (snd (V2.pop_batch maxCount ws s)).
Proof.
  unfold V2.pop_batch.
  destruct (wait_first ws s 0) as [[res s1] n] eqn:Hw.
  apply wait_first_spec in Hw as (k & -> & -> & Hres). cbn [Nat.add].
  destruct res as [ws1|].
  - destruct (shutdown _ && empty _).
    + cbn [fst snd out waits]. rewrite repeat_length. apply moved_env.
    + destruct Hres as (-> & _ & _).
      pose proof (moved_drain maxCount (drop k ws) cleared
                    (env_run (flat_map during (take k ws)) s) aligned_cleared) as Hd.
      destruct (drain maxCount cleared _) as [o s2]. cbn [fst snd] in Hd.
      destruct (V2.batch_loop maxCount (drop k ws) o s2 0) as [[o3 s3] m] eqn:Hb.
      apply batch_loop_spec in Hb as (m' & -> & Hm); [|apply Hd].
      cbn [fst snd out waits]. rewrite length_waits.
      eapply moved_seq; [apply moved_env|].
      replace m' with (0 + m')%nat by lia.
      eapply moved_seq; [exact Hd|exact Hm].
  - cbn [fst snd out waits]. rewrite repeat_length. apply moved_env.
Qed.

(** *** Runs *)

Lemma run_op_under_lock pop sl o :
  (forall maxCount ws s, under_lock s -> under_lock (snd (pop maxCount ws s))) ->
  under_lock (fst sl) -> under_lock (fst (run_op pop sl o)).
Proof.
  intros Hpop. destruct sl as [s l]. cbn [fst]. intros Hs.
  destruct o as [e|maxCount ws]; cbn [run_op].
  - now apply under_lock_env_step.
  - specialize (Hpop maxCount ws s Hs). now destruct (pop maxCount ws s).
Qed.

Lemma fold_run_under_lock pop ops :
  (forall maxCount ws s, under_lock s -> under_lock (snd (pop maxCount ws s))) ->
  forall sl, under_lock (fst sl) -> under_lock (fst (fold_left (run_op pop) ops sl)).
Proof.
  intros Hpop. induction ops as [|o ops IH]; intros sl Hs; [assumption|].
  cbn [fold_left]. apply IH. now apply run_op_under_lock.
Qed.

(** Whatever the producers, the shutdown path and the network thread do,
    with either definition of [pop_batch], the state they leave is one a
    holder of the mutex can find. *)
Lemma run_under_lock_v1 ops : under_lock (fst (run V1.pop_batch ops init)).
Proof.
  apply fold_run_under_lock; [|constructor].
  intros maxCount ws s. apply (pop_batch_v1_moved maxCount ws s).
Qed.

Lemma run_under_lock_v2 ops : under_lock (fst (run V2.pop_batch ops init)).
Proof.
  apply fold_run_under_lock; [|constructor].
  intros maxCount ws s. apply (pop_batch_v2_moved maxCount ws s).
Qed.

Lemma conserved_drain maxCount o s : conserved s -> conserved (snd (drain maxCount o s)).
Proof.
  unfold conserved, size. rewrite drain_spec. cbn. intros ->.
  rewrite length_drop.
  rewrite <- (wrap64_add_l (bump _ _)), bump_wrap, wrap64_add_l.
  f_equal. lia.
Qed.

(** C2. Pipeline conservation: in every state that a thread holding the
    queue mutex can observe (after any interleaving of [push],
    [push_batch], [requestShutdown] and the collecting sections of
    [pop_batch]), [totalPushed] equals [totalPopped] plus the queue depth
    and [totalPushed - totalPopped] equals the depth, in the 64-bit
    arithmetic of the counters; the difference is the depth itself as
    long as the depth fits a [size_t]. *)
Theorem pipeline_conservation (s : t) :
  under_lock s ->
  totalPushed s = wrap64 (totalPopped s + size s) /\
  wrap64 (totalPushed s - totalPopped s) = wrap64 (size s) /\
  (size s < 2 ^ 64 -> wrap64 (totalPushed s - totalPopped s) = size s).
Proof.
  intros Hs.
  assert (Hc : conserved s).
  { induction Hs as [|s dp tid gid Hs IH|s l tid gid Hs IH|s Hs IH|s maxCount o Hs IH].
    - reflexivity.
    - unfold conserved, size in *. cbn. rewrite IH, length_app, wrap64_add_l.
      f_equal. cbn. lia.
    - unfold push_batch. destruct l as [|a l]; [assumption|].
      unfold conserved, size in *. cbn [totalPushed totalPopped queue].
      rewrite IH, push_loop_app, length_app, length_map, wrap64_add_l.
      f_equal. lia.
    - assumption.
    - now apply conserved_drain. }
  unfold conserved in Hc.
  assert (Hd : wrap64 (totalPushed s - totalPopped s) = wrap64 (size s)).
  { rewrite Hc. unfold wrap64. rewrite Zminus_mod_idemp_l. f_equal. lia. }
  repeat split; [assumption|assumption|].
  intros Hlt. rewrite Hd. apply wrap64_small. unfold size in *. lia.
Qed.

Lemma pipeline_conservation_witness :
  let s := snd (drain 1 cleared (push_batch [it 2; it 3] 1 0 (push (it 1) 0 0 init))) in
  under_lock s /\
  totalPushed s = wrap64 (totalPopped s + size s) /\
  wrap64 (totalPushed s - totalPopped s) = wrap64 (size s) /\
  (size s < 2 ^ 64 -> wrap64 (totalPushed s - totalPopped s) = size s).
Proof.
  cbv zeta.
  assert (H : under_lock
                (snd (drain 1 cleared (push_batch [it 2; it 3] 1 0 (push (it 1) 0 0 init)))))
    by (repeat constructor).
  split; [exact H|]. exact (pipeline_conservation _ H).
Defined.

(** *** Order *)

Lemma run_op_in_order pop sl o :
  (forall maxCount ws s,
      moved ws (length (waits (fst (pop maxCount ws s)))) cleared s
            (out (fst (pop maxCount ws s))) (snd (pop maxCount ws s))) ->
  in_order sl -> in_order (run_op pop sl o).
Proof.
  intros Hpop. destruct sl as [s l]. unfold in_order. cbn [fst snd]. intros H.
  destruct o as [e|maxCount ws]; cbn [run_op].
  - cbn [fst snd pushed popped]. now rewrite env_step_queue, app_assoc, H.
  - specialize (Hpop maxCount ws s). destruct (pop maxCount ws s) as [r s'].
    cbn [fst snd pushed popped] in *. destruct Hpop as (_ & Hf & _).
    cbn [items_of cleared dps zip_with app] in Hf. unfold arrivals.
    now rewrite <- app_assoc, Hf, app_assoc, H.
Qed.

Lemma fold_run_in_order pop ops :
  (forall maxCount ws s,
      moved ws (length (waits (fst (pop maxCount ws s)))) cleared s
            (out (fst (pop maxCount ws s))) (snd (pop maxCount ws s))) ->
  forall sl, in_order sl -> in_order (fold_left (run_op pop) ops sl).
Proof.
  intros Hpop. induction ops as [|o ops IH]; intros sl H; [assumption|].
  cbn [fold_left]. apply IH. now apply run_op_in_order.
Qed.

(** The same for the first definition of the class. *)
Lemma fifo_v1 (ops : list op) :
  popped (snd (run V1.pop_batch ops init)) ++ queue (fst (run V1.pop_batch ops init))
    = pushed (snd (run V1.pop_batch ops init)).
Proof. apply fold_run_in_order; [apply pop_batch_v1_moved|reflexivity]. Qed.

Lemma run_in_order_v2 (ops : list op) : in_order (run V2.pop_batch ops init).
Proof. apply fold_run_in_order; [apply pop_batch_v2_moved|reflexivity]. Qed.

(** C9. FIFO: over any run of pushes, batch pushes, shutdown requests and
    [pop_batch] calls (with any schedule of wake-ups), the items handed
    out so far followed by the items still queued are the items pushed,
    in the order of the pushes; so for every producer (the thread and GPU
    ids it pushes under) its items come out in the order it pushed them. *)
Theorem fifo_per_producer (ops : list op) (tid gid : Z) :
  popped (snd (run V2.pop_batch ops init)) ++ queue (fst (run V2.pop_batch ops init))
    = pushed (snd (run V2.pop_batch ops init)) /\
  from tid gid (popped (snd (run V2.pop_batch ops init)))
    `prefix_of` from tid gid (pushed (snd (run V2.pop_batch ops init))).
Proof.
  pose proof (run_in_order_v2 ops) as H.
  split; [exact H|].
  unfold in_order in H. rewrite <- H. unfold from. rewrite filter_app.
  now apply prefix_app_r.
Qed.

Example fifo_sample :
  from 1 0 (popped (snd (run V2.pop_batch sample_ops init)))
    = [mkDPITEM (it 2) 1 0; mkDPITEM (it 3) 1 0] /\
  from 1 0 (pushed (snd (run V2.pop_batch sample_ops init)))
    = [mkDPITEM (it 2) 1 0; mkDPITEM (it 3) 1 0; mkDPITEM (it 5) 1 0].
Proof. split; reflexivity. Qed.

(** *** The two definitions side by side *)

Lemma batch_loop_skip maxCount ws o s n :
  (Z.of_nat (length (dps o)) <? maxCount) && negb (shutdown s) = false ->
  V2.batch_loop maxCount ws o s n = (o, s, n).
Proof. intros H. destruct ws; cbn [V2.batch_loop]; now rewrite H. Qed.

Lemma wait_first_skip ws s n :
  empty s && negb (shutdown s) = false -> wait_first ws s n = (Some ws, s, n).
Proof. intros H. destruct ws; cbn [wait_first]; now rewrite H. Qed.

(** The second definition is the first one followed by the batching
    loop: when that loop has nothing to do, the two agree. *)
Lemma pop_batch_v2_as_v1 maxCount ws s :
  (forall s1, (exists es, s1 = env_run es s) ->
     (Z.of_nat (length (dps (fst (drain maxCount cleared s1)))) <? maxCount)
       && negb (shutdown (snd (drain maxCount cleared s1))) = false) ->
  V2.pop_batch maxCount ws s = V1.pop_batch maxCount ws s.
Proof.
  intros Hfull. unfold V2.pop_batch, V1.pop_batch.
  destruct (wait_first ws s 0) as [[res s1] n] eqn:Hw.
  destruct res as [ws1|]; [|reflexivity].
  destruct (shutdown s1 && empty s1); [reflexivity|].
  apply wait_first_spec in Hw as (k & _ & Hs1 & _).
  specialize (Hfull s1 (ex_intro _ _ Hs1)).
  destruct (drain maxCount cleared s1) as [o s2]. cbn [fst snd] in Hfull.
  rewrite batch_loop_skip by assumption. cbn [repeat]. now rewrite app_nil_r.
Qed.

Lemma drain_cleared_length maxCount s :
  length (dps (fst (drain maxCount cleared s)))
    = Nat.min (length (queue s)) (Z.to_nat maxCount).
Proof.
  rewrite drain_spec. cbn [fst]. rewrite fold_push_back_dps.
  cbn [dps cleared app]. rewrite length_map, length_take.
  unfold room. cbn [dps cleared length]. lia.
Qed.

Lemma env_run_length es s : (length (queue s) <= length (queue (env_run es s)))%nat.
Proof. rewrite env_run_queue, length_app. lia. Qed.

(** C10. The two definitions of [pop_batch] on a queue that already
    holds [maxCount] items, shutdown not requested: the calls return the
    same thing and leave the same state; and for a positive [maxCount]
    that is: [true], the first [maxCount] items of the queue in their
    order (in all three vectors), no wait, [totalPopped] advanced by
    [maxCount] and the rest of the queue left in place. *)
Theorem pop_batch_definitions_agree (maxCount : Z) (ws : list wake) (s : t) :
  maxCount <= size s ->
  shutdown s = false ->
  V1.pop_batch maxCount ws s = V2.pop_batch maxCount ws s /\
  (0 < maxCount ->
   V2.pop_batch maxCount ws s =
     (mkResult true
        (mkVecs (map dp (take (Z.to_nat maxCount) (queue s)))
                (map threadId (take (Z.to_nat maxCount) (queue s)))
                (map gpuId (take (Z.to_nat maxCount) (queue s))))
        [],
      {| queue := drop (Z.to_nat maxCount) (queue s);
         shutdown := false;
         totalPushed := totalPushed s;
         totalPopped := bump (Z.to_nat maxCount) (totalPopped s) |}) /\
   wrap64 (bump (Z.to_nat maxCount) (totalPopped s))
     = wrap64 (totalPopped s + maxCount)).
Proof.
  intros Hsize Hsd. unfold size in Hsize. split.
  - symmetry. apply pop_batch_v2_as_v1. intros s1 [es ->].
    apply andb_false_intro1, Z.ltb_ge.
    rewrite drain_cleared_length.
    pose proof (env_run_length es s). lia.
  - intros Hpos. split; [|rewrite bump_wrap; f_equal; lia].
    unfold V2.pop_batch.
    assert (Hne : empty s = false).
    { unfold empty. destruct (queue s); [cbn in Hsize; lia|reflexivity]. }
    rewrite wait_first_skip by (now rewrite Hne).
    rewrite Hsd, Hne. cbn [andb].
    pose proof (drain_cleared_length maxCount s) as Hlen.
    rewrite drain_spec in *. cbv zeta in *. cbn [fst] in Hlen.
    unfold room in *. cbn [dps cleared length] in *.
    replace (Nat.min (length (queue s)) (Z.to_nat (maxCount - Z.of_nat 0)))
      with (Z.to_nat maxCount) in * by lia.
    rewrite batch_loop_skip
      by (apply andb_false_intro1, Z.ltb_ge; rewrite Hlen; lia).
    cbn [repeat app]. rewrite Hsd.
    destruct (fold_left push_back (take (Z.to_nat maxCount) (queue s)) cleared)
      as [ds ts gs] eqn:Hfold.
    pose proof (fold_push_back_dps (take (Z.to_nat maxCount) (queue s)) cleared) as Hd.
    pose proof (fold_push_back_threadIds (take (Z.to_nat maxCount) (queue s)) cleared) as Ht.
    pose proof (fold_push_back_gpuIds (take (Z.to_nat maxCount) (queue s)) cleared) as Hg.
    rewrite Hfold in Hd, Ht, Hg. cbn in Hd, Ht, Hg, Hlen. subst ds ts gs.
    destruct (map dp (take (Z.to_nat maxCount) (queue s))) eqn:Hm;
      [cbn in Hlen; lia|reflexivity].
Qed.

Lemma pop_batch_definitions_agree_witness :
  let s := push_batch [it 1; it 2; it 3] 7 0 init in
  V1.pop_batch 2 [] s = V2.pop_batch 2 [] s /\
  (0 < 2 ->
   V2.pop_batch 2 [] s =
     (mkResult true (mkVecs [it 1; it 2] [7; 7] [0; 0]) [],
      {| queue := [mkDPITEM (it 3) 7 0]; shutdown := false;
         totalPushed := 3; totalPopped := 2 |}) /\
   wrap64 2 = wrap64 (0 + 2)).
Proof.
  exact (pop_batch_definitions_agree 2 [] (push_batch [it 1; it 2; it 3] 7 0 init)
           ltac:(unfold size; cbn; lia) eq_refl).
Defined.

(** *** Shutdown *)

Lemma fold_push_back_cleared l :
  fold_left push_back l cleared = mkVecs (map dp l) (map threadId l) (map gpuId l).
Proof.
  pose proof (fold_push_back_dps l cleared) as Hd.
  pose proof (fold_push_back_threadIds l cleared) as Ht.
  pose proof (fold_push_back_gpuIds l cleared) as Hg.
  destruct (fold_left push_back l cleared). cbn in *. now subst.
Qed.

Lemma items_of_maps l :
  items_of (mkVecs (map dp l) (map threadId l) (map gpuId l)) = l.
Proof.
  induction l as [|[a b c] l IH]; [reflexivity|].
  unfold items_of in *. cbn in *. now rewrite IH.
Qed.

(** Once the flag is set a call never sleeps: it hands out what it can
    take from the front of the queue and returns. *)
Lemma pop_batch_after_shutdown maxCount ws s :
  shutdown s = true ->
  V2.pop_batch maxCount ws s
    = hand_out (Nat.min (length (queue s)) (Z.to_nat maxCount)) s.
Proof.
  destruct s as [q sd pushed popped]. cbn [shutdown queue]. intros ->.
  unfold V2.pop_batch.
  rewrite wait_first_skip by apply andb_false_r.
  destruct q as [|a q].
  - reflexivity.
  - cbn [shutdown empty queue andb]. rewrite drain_spec. cbv beta iota zeta.
    rewrite batch_loop_skip by apply andb_false_r.
    unfold hand_out, room. cbn [queue shutdown totalPushed totalPopped dps cleared length].
    replace (Z.to_nat (maxCount - Z.of_nat 0)) with (Z.to_nat maxCount) by lia.
    rewrite fold_push_back_cleared. cbn [dps repeat app].
    now destruct (take _ (a :: q)).
Qed.

Lemma shutdown_env_step e s : shutdown s = true -> shutdown (env_step e s) = true.
Proof.
  destruct e as [dp tid gid|l tid gid|]; cbn; try easy.
  unfold push_batch. now destruct l.
Qed.

(** Nothing in the class clears the flag. *)
Lemma shutdown_sticky ops : forall sl,
  shutdown (fst sl) = true ->
  shutdown (fst (fold_left (run_op V2.pop_batch) ops sl)) = true.
Proof.
  induction ops as [|o ops IH]; intros [s l] H; [assumption|].
  cbn [fold_left]. apply IH. cbn [fst] in H.
  destruct o as [e|maxCount ws]; cbn [run_op].
  - now apply shutdown_env_step.
  - rewrite pop_batch_after_shutdown by assumption. exact H.
Qed.

(** C7. [requestShutdown] sets the flag and broadcasts on the condition
    variable.  Whatever happens afterwards, the flag stays set, and
    every later call of [pop_batch] returns without waiting: it hands
    out the items at the front of the queue (up to [maxCount] of them,
    in order), and on a drained queue it returns [false] with the three
    vectors empty and the queue state untouched. *)
Theorem shutdown_then_drain (s0 : t) (ops : list op) (maxCount : Z) (ws : list wake) :
  let s1 := fst (requestShutdown s0) in
  let s := fst (run V2.pop_batch ops s1) in
  snd (requestShutdown s0) = Broadcast /\
  shutdown s1 = true /\ queue s1 = queue s0 /\
  shutdown s = true /\
  V2.pop_batch maxCount ws s
    = hand_out (Nat.min (length (queue s)) (Z.to_nat maxCount)) s /\
  (queue s = [] -> V2.pop_batch maxCount ws s = (mkResult false cleared [], s)).
Proof.
  cbv zeta.
  assert (Hs : shutdown (fst (run V2.pop_batch ops (fst (requestShutdown s0)))) = true)
    by (apply shutdown_sticky; reflexivity).
  repeat split; try assumption.
  - now apply pop_batch_after_shutdown.
  - intros Hq. rewrite pop_batch_after_shutdown by assumption.
    destruct (run V2.pop_batch ops (fst (requestShutdown s0))) as [[q sd p1 p2] l].
    cbn in *. subst. reflexivity.
Qed.

(** X14. After the request, calls that ask for at least one item empty the
    queue: as many calls as there were items left are enough, the items
    come out in queue order, and the next call returns empty. *)
Lemma shutdown_drains_queue (calls : list (Z * list wake)) : forall s l,
  shutdown s = true ->
  Forall (fun c => 0 < fst c) calls ->
  (length (queue s) <= length calls)%nat ->
  let sl := fold_left (run_op V2.pop_batch)
              (map (fun c => PopBatch (fst c) (snd c)) calls) (s, l) in
  queue (fst sl) = [] /\ popped (snd sl) = popped l ++ queue s /\
  shutdown (fst sl) = true.
Proof.
  induction calls as [|[mc ws] calls IH]; intros s l Hsd Hall Hlen; cbv zeta.
  - cbn in *. destruct (queue s); [|cbn in Hlen; lia].
    now rewrite app_nil_r.
  - cbn [map fold_left run_op fst snd].
    rewrite pop_batch_after_shutdown by assumption.
    inversion Hall as [|c cs Hmc Hall']; subst. cbn [fst] in Hmc.
    unfold hand_out.
    set (k := Nat.min (length (queue s)) (Z.to_nat mc)).
    match goal with
    | |- context [fold_left _ _ (?s1, ?l1)] =>
      destruct (IH s1 l1) as (Hq & Hp & Hs)
    end.
    + exact Hsd.
    + assumption.
    + cbn [queue]. rewrite length_drop. cbn [length] in Hlen. unfold k. lia.
    + split; [exact Hq|]. split; [|exact Hs].
      rewrite Hp. cbn [popped queue out].
      now rewrite items_of_maps, <- app_assoc, take_drop.
Qed.

(** *** The batching window *)

(** C3, counterexample.  The statement of the specification fails once
    shutdown has been requested: with one item queued, [maxCount = 2] and a producer about
    to push a second item, the class returns the single item at once,
    without any batching wait, where the sentence has the call wait and
    come back with both. *)
Lemma batching_ignores_shutdown_counterexample :
  let s := fst (requestShutdown (push (it 1) 0 0 init)) in
  let ws := [mkWake [EnvPush (it 2) 0 0] false] in
  fst (V2.pop_batch 2 ws s) = mkResult true (mkVecs [it 1] [0] [0]) [] /\
  fst (Described.pop_batch 2 50 ws s)
    = mkResult true (mkVecs [it 1; it 2] [0; 0] [0; 0]) [BatchWait 50] /\
  V2.pop_batch 2 ws s <> Described.pop_batch 2 50 ws s.
Proof. cbv zeta. split; [reflexivity|]. split; [reflexivity|]. discriminate. Qed.

Lemma wait_first_none ws : forall s n s1 n',
  wait_first ws s n = (None, s1, n') -> (n < n')%nat /\ ran_out ws (n' - n).
Proof.
  induction ws as [|w ws IH]; intros s n s1 n' H; cbn [wait_first] in H.
  - destruct (empty s && negb (shutdown s)); inversion H; subst.
    split; [lia|]. replace (S n - n)%nat with 1%nat by lia. exact I.
  - destruct (empty s && negb (shutdown s)); [|discriminate].
    destruct (timedout w) eqn:Ht.
    + inversion H; subst. split; [lia|].
      replace (S n - n)%nat with 1%nat by lia. exact Ht.
    + apply IH in H as [Hlt Hr]. split; [lia|].
      replace (n' - n)%nat with (S (n' - S n)) by lia.
      destruct (n' - S n)%nat eqn:E; [lia|]. exact Hr.
Qed.

Lemma drain_length maxCount o s :
  Z.of_nat (length (dps o)) <= maxCount ->
  Z.of_nat (length (dps (fst (drain maxCount o s)))) <= maxCount /\
  (length (dps o) <= length (dps (fst (drain maxCount o s))))%nat.
Proof.
  intros H. rewrite drain_spec. cbn [fst]. rewrite fold_push_back_dps.
  rewrite length_app, length_map, length_take. unfold room. lia.
Qed.

(** How the batching loop is left: the batch is full, or shutdown has
    been requested, or the last wait ran into the batching delay. *)
Lemma batch_loop_exit maxCount ws : forall o s n o' s' n',
  V2.batch_loop maxCount ws o s n = (o', s', n') ->
  Z.of_nat (length (dps o)) <= maxCount ->
  Z.of_nat (length (dps o')) <= maxCount /\
  (length (dps o) <= length (dps o'))%nat /\
  (Z.of_nat (length (dps o')) = maxCount \/ shutdown s' = true \/
   ((n < n')%nat /\ ran_out ws (n' - n))).
Proof.
  induction ws as [|w ws IH]; intros o s n o' s' n' H Ho; cbn [V2.batch_loop] in H.
  - destruct (Z.ltb_spec (Z.of_nat (length (dps o))) maxCount) as [Hlt|Hge];
      destruct (shutdown s) eqn:Hsd; cbn [andb negb] in H; inversion H; subst;
      (split; [assumption|split; [lia|]]); try tauto; try (left; lia).
    right; right. split; [lia|]. replace (S n - n)%nat with 1%nat by lia. exact I.
  - destruct (Z.ltb_spec (Z.of_nat (length (dps o))) maxCount) as [Hlt|Hge];
      destruct (shutdown s) eqn:Hsd; cbn [andb negb] in H;
      try (inversion H; subst; (split; [assumption|split; [lia|]]);
           try tauto; left; lia).
    destruct (timedout w) eqn:Ht.
    + inversion H; subst. split; [assumption|split; [lia|]].
      right; right. split; [lia|]. replace (S n - n)%nat with 1%nat by lia. exact Ht.
    + pose proof (drain_length maxCount o (env_run (during w) s) Ho) as [Hle Hmono].
      destruct (drain maxCount o (env_run (during w) s)) as [o2 s2]. cbn [fst] in *.
      destruct (Z.geb_spec (Z.of_nat (length (dps o2))) maxCount) as [Hfull|Hnot].
      * inversion H; subst. split; [assumption|split; [assumption|]]. left. lia.
      * apply IH in H as (Hle' & Hmono' & Hexit); [|assumption].
        split; [assumption|split; [lia|]].
        destruct Hexit as [Hf|[Hs|[Hlt' Hr]]]; [tauto|tauto|].
        right; right. split; [lia|].
        replace (n' - n)%nat with (S (n' - S n)) by lia.
        destruct (n' - S n)%nat eqn:E; [lia|]. exact Hr.
Qed.

Lemma ran_out_drop ws k m :
  (0 < m)%nat -> ran_out (drop k ws) m -> ran_out ws (k + m).
Proof.
  destruct m as [|j]; [lia|]. intros _. rewrite Nat.add_succ_r.
  cbn [ran_out]. now rewrite lookup_drop.
Qed.

(** As long as nobody requests shutdown the class does what the
    sentence of the specification says. *)
Lemma env_run_no_shutdown es : forall s,
  Forall (fun e => e <> EnvShutdown) es -> shutdown (env_run es s) = shutdown s.
Proof.
  induction es as [|e es IH]; intros s Hall; [reflexivity|].
  inversion Hall as [|e' es' He Hes]; subst.
  change (env_run (e :: es) s) with (env_run es (env_step e s)).
  rewrite IH by assumption.
  destruct e as [dp tid gid|l tid gid|]; [reflexivity| |congruence].
  cbn. unfold push_batch. now destruct l.
Qed.

Lemma batch_loop_as_described maxCount ws : forall o s n,
  shutdown s = false -> no_shutdown ws ->
  V2.batch_loop maxCount ws o s n = Described.batch_loop maxCount ws o s n.
Proof.
  induction ws as [|w ws IH]; intros o s n Hsd Hall;
    cbn [V2.batch_loop Described.batch_loop]; rewrite Hsd, andb_true_r.
  - reflexivity.
  - inversion Hall as [|w' ws' Hw Hws]; subst.
    destruct (Z.of_nat (length (dps o)) <? maxCount); [|reflexivity].
    destruct (timedout w); [reflexivity|].
    pose proof (drain_shutdown maxCount o (env_run (during w) s)) as Hsd2.
    rewrite env_run_no_shutdown, Hsd in Hsd2 by assumption.
    destruct (drain maxCount o (env_run (during w) s)) as [o2 s2]. cbn [snd] in Hsd2.
    rewrite <- IH by assumption.
    destruct (Z.geb_spec (Z.of_nat (length (dps o2))) maxCount) as [Hfull|Hnot];
      [|reflexivity].
    rewrite batch_loop_skip; [reflexivity|].
    apply andb_false_intro1, Z.ltb_ge. lia.
Qed.

Lemma pop_batch_as_described maxCount ws s :
  shutdown s = false -> no_shutdown ws ->
  V2.pop_batch maxCount ws s = Described.pop_batch maxCount 50 ws s.
Proof.
  intros Hsd Hall. unfold V2.pop_batch, Described.pop_batch.
  destruct (wait_first ws s 0) as [[res s1] n] eqn:Hw.
  destruct res as [ws1|]; [|reflexivity].
  destruct (shutdown s1 && empty s1); [reflexivity|].
  apply wait_first_spec in Hw as (k & _ & -> & -> & _).
  assert (Hsd1 : shutdown (env_run (flat_map during (take k ws)) s) = false).
  { rewrite env_run_no_shutdown; [assumption|].
    apply Forall_flat_map. unfold no_shutdown in Hall.
    now apply Forall_take. }
  pose proof (drain_shutdown maxCount cleared
                (env_run (flat_map during (take k ws)) s)) as Hsd2.
  rewrite Hsd1 in Hsd2.
  destruct (drain maxCount cleared _) as [o s2]. cbn [snd] in Hsd2.
  rewrite batch_loop_as_described; [reflexivity|assumption|].
  now apply Forall_drop.
Qed.

(** *** What a call collects

    The collecting loop is greedy: whenever it has run, the vectors hold
    the first [maxCount] of the items seen so far and the queue holds
    the others. *)
Lemma take_app_room {A} (n : nat) (Q B : list A) :
  take n (Q ++ B) = take n Q ++ take (n - length (take n Q)) (drop n Q ++ B).
Proof.
  destruct (Nat.le_gt_cases n (length Q)) as [Hle|Hgt].
  - rewrite take_app_le by assumption.
    rewrite length_take, Nat.min_l, Nat.sub_diag by assumption.
    now rewrite take_0, app_nil_r.
  - rewrite (take_ge Q), (drop_ge Q) by lia. cbn [app].
    now rewrite take_app_ge by lia.
Qed.

Lemma drop_app_room {A} (n : nat) (Q B : list A) :
  drop n (Q ++ B) = drop (n - length (take n Q)) (drop n Q ++ B).
Proof.
  destruct (Nat.le_gt_cases n (length Q)) as [Hle|Hgt].
  - rewrite drop_app_le by assumption.
    rewrite length_take, Nat.min_l, Nat.sub_diag by assumption.
    now rewrite drop_0.
  - rewrite (take_ge Q), (drop_ge Q) by lia. cbn [app].
    now rewrite drop_app_ge by lia.
Qed.

Lemma take_min_length {A} (r : nat) (l : list A) :
  take (Nat.min (length l) r) l = take r l.
Proof.
  destruct (Nat.le_gt_cases r (length l)) as [Hle|Hgt].
  - now rewrite Nat.min_r.
  - rewrite Nat.min_l by lia. now rewrite !take_ge by lia.
Qed.

Lemma drop_min_length {A} (r : nat) (l : list A) :
  drop (Nat.min (length l) r) l = drop r l.
Proof.
  destruct (Nat.le_gt_cases r (length l)) as [Hle|Hgt].
  - now rewrite Nat.min_r.
  - rewrite Nat.min_l by lia. now rewrite !drop_ge by lia.
Qed.

Lemma items_of_length o : aligned o -> length (items_of o) = length (dps o).
Proof.
  intros [H1 H2]. unfold items_of. rewrite length_zip_with, length_zip_with. lia.
Qed.

(** One run of the collecting loop on a queue to which [B] was appended
    since the last run. *)
Lemma drain_gathers maxCount o s (Q B : list DPITEM) :
  aligned o ->
  items_of o = take (Z.to_nat maxCount) Q ->
  queue s = drop (Z.to_nat maxCount) Q ++ B ->
  items_of (fst (drain maxCount o s)) = take (Z.to_nat maxCount) (Q ++ B) /\
  queue (snd (drain maxCount o s)) = drop (Z.to_nat maxCount) (Q ++ B).
Proof.
  intros Ho Hi Hq. rewrite drain_spec. cbn [fst snd queue].
  rewrite items_of_fold by assumption.
  rewrite take_min_length, drop_min_length.
  assert (Hr : room maxCount o
               = (Z.to_nat maxCount - length (take (Z.to_nat maxCount) Q))%nat).
  { unfold room. rewrite <- Hi, items_of_length by assumption. lia. }
  rewrite Hr, Hi, Hq. split.
  - symmetry. apply take_app_room.
  - symmetry. apply drop_app_room.
Qed.

Lemma heard_cons_wake w ws k :
  timedout w = false -> heard (w :: ws) (S k) = during w ++ heard ws k.
Proof.
  intros Ht. unfold heard. cbn [take firstn].
  now rewrite filter_cons_True by assumption.
Qed.

Lemma heard_cons_timeout w ws k :
  timedout w = true -> heard (w :: ws) (S k) = heard ws k.
Proof.
  intros Ht. unfold heard. cbn [take firstn].
  rewrite filter_cons_False; [reflexivity|]. rewrite Ht. discriminate.
Qed.

Lemma missed_cons_wake w ws k :
  timedout w = false -> missed (w :: ws) (S k) = missed ws k.
Proof.
  intros Ht. unfold missed. cbn [take firstn].
  rewrite filter_cons_False; [reflexivity|]. rewrite Ht. discriminate.
Qed.

Lemma missed_cons_timeout w ws k :
  timedout w = true -> missed (w :: ws) (S k) = during w ++ missed ws k.
Proof.
  intros Ht. unfold missed. cbn [take firstn].
  now rewrite filter_cons_True by assumption.
Qed.

Lemma heard_add ws k m : heard ws (k + m) = heard ws k ++ heard (drop k ws) m.
Proof.
  unfold heard. now rewrite <- take_take_drop, filter_app, flat_map_app.
Qed.

Lemma missed_add ws k m : missed ws (k + m) = missed ws k ++ missed (drop k ws) m.
Proof.
  unfold missed. now rewrite <- take_take_drop, filter_app, flat_map_app.
Qed.

(** The wait for the first item: what arrived during the wake-ups is in
    the queue, and so is what arrived during a wait that ran into the
    deadline; when the loop gives up, nothing had arrived before that
    last wait. *)
Lemma wait_first_gathers ws : forall s n res s1 n',
  wait_first ws s n = (res, s1, n') ->
  exists k : nat,
    n' = (n + k)%nat /\
    queue s1 = (queue s ++ flat_map pushed_by (heard ws k))
                 ++ flat_map pushed_by (missed ws k) /\
    match res with
    | Some ws1 => ws1 = drop k ws /\ missed ws k = []
    | None => queue s ++ flat_map pushed_by (heard ws k) = []
    end.
Proof.
  induction ws as [|w ws IH]; intros s n res s1 n' H; cbn [wait_first] in H.
  - destruct (empty s) eqn:He; destruct (shutdown s) eqn:Hsd;
      cbn [andb negb] in H; inversion H; subst.
    + exists 0%nat. split; [lia|]. cbn. now rewrite !app_nil_r.
    + exists 1%nat. split; [lia|]. cbn. rewrite !app_nil_r. split; [reflexivity|].
      unfold empty in He. now destruct (queue s1).
    + exists 0%nat. split; [lia|]. cbn. now rewrite !app_nil_r.
    + exists 0%nat. split; [lia|]. cbn. now rewrite !app_nil_r.
  - destruct (empty s && negb (shutdown s)) eqn:Hc.
    + assert (Hq : queue s = []).
      { apply andb_true_iff in Hc as [He _]. unfold empty in He.
        now destruct (queue s). }
      destruct (timedout w) eqn:Ht.
      * inversion H; subst. exists 1%nat. split; [lia|].
        rewrite heard_cons_timeout, missed_cons_timeout by assumption.
        unfold heard, missed. rewrite take_0. cbn [filter flat_map list_filter].
        rewrite env_run_queue, Hq, !app_nil_r. cbn [app]. now split.
      * apply IH in H as (k & -> & Hq1 & Hres). exists (S k). split; [lia|].
        rewrite heard_cons_wake, missed_cons_wake by assumption.
        rewrite env_run_queue in Hq1. rewrite flat_map_app.
        rewrite Hq1, <- !app_assoc. split; [reflexivity|].
        destruct res as [ws1|].
        -- exact Hres.
        -- rewrite env_run_queue, <- app_assoc in Hres. exact Hres.
    + inversion H; subst. exists 0%nat. split; [lia|].
      unfold heard, missed. rewrite take_0, drop_0. cbn.
      now rewrite !app_nil_r.
Qed.

(** The batching loop: every wake-up is followed by a run of the
    collecting loop, a wait that runs into the delay is not. *)
Lemma batch_loop_gathers maxCount ws : forall o s n o' s' n' (Q : list DPITEM),
  V2.batch_loop maxCount ws o s n = (o', s', n') ->
  aligned o ->
  items_of o = take (Z.to_nat maxCount) Q ->
  queue s = drop (Z.to_nat maxCount) Q ->
  exists k : nat,
    n' = (n + k)%nat /\
    items_of o' = take (Z.to_nat maxCount) (Q ++ flat_map pushed_by (heard ws k)) /\
    queue s' = drop (Z.to_nat maxCount) (Q ++ flat_map pushed_by (heard ws k))
                 ++ flat_map pushed_by (missed ws k).
Proof.
  induction ws as [|w ws IH]; intros o s n o' s' n' Q H Ho Hi Hq;
    cbn [V2.batch_loop] in H.
  - destruct (_ && _); inversion H; subst.
    + exists 1%nat. split; [lia|]. cbn. now rewrite !app_nil_r.
    + exists 0%nat. split; [lia|]. cbn. now rewrite !app_nil_r.
  - destruct (_ && _).
    + destruct (timedout w) eqn:Ht.
      * inversion H; subst. exists 1%nat. split; [lia|].
        rewrite heard_cons_timeout, missed_cons_timeout by assumption.
        unfold heard, missed. rewrite take_0. cbn [filter flat_map list_filter].
        rewrite env_run_queue, Hq, !app_nil_r. now split.
      * assert (Hq1 : queue (env_run (during w) s)
                      = drop (Z.to_nat maxCount) Q ++ flat_map pushed_by (during w))
          by now rewrite env_run_queue, Hq.
        pose proof (drain_gathers maxCount o _ Q _ Ho Hi Hq1) as [Hi2 Hq2].
        pose proof (drain_aligned maxCount o (env_run (during w) s) Ho) as Ho2.
        destruct (drain maxCount o (env_run (during w) s)) as [o2 s2].
        cbn [fst snd] in *.
        destruct (Z.of_nat (length (dps o2)) >=? maxCount).
        -- inversion H; subst. exists 1%nat. split; [lia|].
           rewrite heard_cons_wake, missed_cons_wake by assumption.
           unfold heard, missed. rewrite take_0. cbn [filter flat_map list_filter].
           now rewrite !app_nil_r.
        -- apply (IH _ _ _ _ _ _ _ H Ho2 Hi2) in Hq2 as (k & -> & Hi3 & Hq3).
           exists (S k). split; [lia|].
           rewrite heard_cons_wake, missed_cons_wake by assumption.
           rewrite flat_map_app, app_assoc. now split.
    + inversion H; subst. exists 0%nat. split; [lia|].
      unfold heard, missed. rewrite take_0. cbn.
      now rewrite !app_nil_r.
Qed.

(** One call: the batch is the first [maxCount] items of the queue as
    the call found it followed by what arrived during the wake-ups of
    its waits; what is left of those stays queued, followed by what
    arrived during a wait that ran into its deadline. *)
Lemma pop_batch_gathers maxCount ws s :
  let r := fst (V2.pop_batch maxCount ws s) in
  let seen := queue s ++ flat_map pushed_by (heard ws (length (waits r))) in
  items_of (out r) = take (Z.to_nat maxCount) seen /\
  queue (snd (V2.pop_batch maxCount ws s))
    = drop (Z.to_nat maxCount) seen
        ++ flat_map pushed_by (missed ws (length (waits r))).
Proof.
  cbv zeta. unfold V2.pop_batch.
  destruct (wait_first ws s 0) as [[res s1] n] eqn:Hw.
  apply wait_first_gathers in Hw as (k & Hn & Hq1 & Hres). cbn [Nat.add] in Hn. subst n.
  destruct res as [ws1|].
  - destruct Hres as [-> Hm].
    rewrite Hm in Hq1. cbn [flat_map] in Hq1. rewrite app_nil_r in Hq1.
    destruct (shutdown s1 && empty s1) eqn:Hc.
    + cbn [fst snd out waits]. rewrite repeat_length, Hm. cbn [flat_map].
      apply andb_true_iff in Hc as [_ He]. unfold empty in He.
      destruct (queue s1) eqn:E; [|discriminate].
      rewrite <- Hq1. rewrite take_nil, drop_nil. now split.
    + pose proof (drain_gathers maxCount cleared s1 [] (queue s1) aligned_cleared)
        as [Hi2 Hq2].
      { now rewrite take_nil. }
      { now rewrite drop_nil. }
      pose proof (drain_aligned maxCount cleared s1 aligned_cleared) as Ho2.
      destruct (drain maxCount cleared s1) as [o s2]. cbn [fst snd app] in *.
      destruct (V2.batch_loop maxCount (drop k ws) o s2 0) as [[o3 s3] m] eqn:Hb.
      apply (batch_loop_gathers _ _ _ _ _ _ _ _ (queue s1)) in Hb
        as (m' & Hm' & Hi3 & Hq3); [|assumption..].
      cbn [Nat.add] in Hm'. subst m'.
      cbn [fst snd out waits]. rewrite length_waits, heard_add, missed_add, Hm.
      cbn [app]. rewrite flat_map_app, app_assoc, <- Hq1. now split.
  - cbn [fst snd out waits]. rewrite repeat_length. rewrite Hres.
    rewrite take_nil, drop_nil. cbn [app]. split; [reflexivity|].
    now rewrite Hq1, Hres.
Qed.

(** *** When a call waits *)

Lemma env_step_shutdown_eq e s s' :
  shutdown s = shutdown s' -> shutdown (env_step e s) = shutdown (env_step e s').
Proof.
  intros Hs. destruct e as [dp tid gid|l tid gid|]; cbn; try assumption; [|reflexivity].
  unfold push_batch. now destruct l.
Qed.

Lemma env_run_shutdown_eq es : forall s s',
  shutdown s = shutdown s' -> shutdown (env_run es s) = shutdown (env_run es s').
Proof.
  induction es as [|e es IH]; intros s s' Hs; [assumption|].
  change (env_run (e :: es) ?x) with (env_run es (env_step e x)).
  apply IH. now apply env_step_shutdown_eq.
Qed.

Lemma waits_split a : forall a' b b' ms,
  repeat FirstWait a ++ repeat (BatchWait ms) b
    = repeat FirstWait a' ++ repeat (BatchWait ms) b' ->
  a = a' /\ b = b'.
Proof.
  induction a as [|a IH]; intros [|a'] b b' ms Heq; cbn [repeat app] in Heq.
  - split; [reflexivity|]. apply (f_equal (@length _)) in Heq.
    now rewrite !repeat_length in Heq.
  - destruct b; discriminate.
  - destruct b'; discriminate.
  - inversion Heq as [Heq']. apply IH in Heq' as [-> ->]. now split.
Qed.

(** A wait for the first item is started only on an empty queue and
    before shutdown is requested. *)
Lemma wait_first_waits ws : forall s n res s1 n',
  wait_first ws s n = (res, s1, n') ->
  forall j, (n + j < n')%nat ->
    queue (env_run (flat_map during (take j ws)) s) = [] /\
    shutdown (env_run (flat_map during (take j ws)) s) = false.
Proof.
  induction ws as [|w ws IH]; intros s n res s1 n' H j Hj; cbn [wait_first] in H.
  - rewrite take_nil. cbn [flat_map env_run fold_left].
    destruct (empty s) eqn:He; destruct (shutdown s) eqn:Hsd;
      cbn [andb negb] in H; try (inversion H; subst; lia).
    unfold empty in He. split; [|reflexivity]. now destruct (queue s).
  - destruct (empty s) eqn:He; destruct (shutdown s) eqn:Hsd;
      cbn [andb negb] in H; try (inversion H; subst; lia).
    assert (H0 : queue s = [] /\ shutdown s = false).
    { unfold empty in He. split; [|assumption]. now destruct (queue s). }
    destruct j as [|j]; [exact H0|].
    destruct (timedout w).
    + inversion H; subst. lia.
    + cbn [take firstn flat_map]. rewrite env_run_app.
      apply (IH _ _ _ _ _ H). lia.
Qed.

(** A batching wait is started only while the batch has room and before
    shutdown is requested. *)
Lemma batch_loop_waits maxCount ws : forall o s n o' s' n' (Q : list DPITEM) base,
  V2.batch_loop maxCount ws o s n = (o', s', n') ->
  aligned o ->
  items_of o = take (Z.to_nat maxCount) Q ->
  queue s = drop (Z.to_nat maxCount) Q ->
  shutdown s = shutdown base ->
  forall j, (n + j < n')%nat ->
    shutdown (env_run (flat_map during (take j ws)) base) = false /\
    (length (Q ++ flat_map pushed_by (heard ws j)) < Z.to_nat maxCount)%nat.
Proof.
  assert (Hstart : forall o s (Q : list DPITEM) base,
            aligned o -> items_of o = take (Z.to_nat maxCount) Q ->
            shutdown s = shutdown base ->
            (Z.of_nat (length (dps o)) <? maxCount) && negb (shutdown s) = true ->
            shutdown base = false /\ (length Q < Z.to_nat maxCount)%nat).
  { intros o s Q base Ho Hi Hsd Hc. apply andb_true_iff in Hc as [Hlt Hns].
    apply Z.ltb_lt in Hlt. apply negb_true_iff in Hns.
    split; [congruence|].
    rewrite <- items_of_length, Hi, length_take in Hlt by assumption. lia. }
  induction ws as [|w ws IH]; intros o s n o' s' n' Q base H Ho Hi Hq Hsd j Hj;
    cbn [V2.batch_loop] in H.
  - destruct (_ && _) eqn:Hc; [|inversion H; subst; lia].
    destruct (Hstart o s Q base Ho Hi Hsd Hc) as [Hb HQ].
    rewrite take_nil. unfold heard. rewrite take_nil. cbn. rewrite app_nil_r.
    now split.
  - destruct (_ && _) eqn:Hc; [|inversion H; subst; lia].
    destruct (Hstart o s Q base Ho Hi Hsd Hc) as [Hb HQ].
    destruct j as [|j].
    { unfold heard. rewrite !take_0. cbn. rewrite app_nil_r. now split. }
    destruct (timedout w) eqn:Ht; [inversion H; subst; lia|].
    assert (Hq1 : queue (env_run (during w) s)
                  = drop (Z.to_nat maxCount) Q ++ flat_map pushed_by (during w))
      by now rewrite env_run_queue, Hq.
    pose proof (drain_gathers maxCount o _ Q _ Ho Hi Hq1) as [Hi2 Hq2].
    pose proof (drain_aligned maxCount o (env_run (during w) s) Ho) as Ho2.
    pose proof (drain_shutdown maxCount o (env_run (during w) s)) as Hsd2.
    destruct (drain maxCount o (env_run (during w) s)) as [o2 s2].
    cbn [fst snd] in *.
    destruct (Z.of_nat (length (dps o2)) >=? maxCount); [inversion H; subst; lia|].
    cbn [take firstn flat_map]. rewrite env_run_app.
    rewrite heard_cons_wake, flat_map_app, app_assoc by assumption.
    apply (IH _ _ _ _ _ _ _ _ H Ho2 Hi2 Hq2); [|lia].
    rewrite Hsd2. now apply env_run_shutdown_eq.
Qed.

Lemma pop_batch_waits maxCount ws s n m :
  waits (fst (V2.pop_batch maxCount ws s))
    = repeat FirstWait n ++ repeat (BatchWait 50) m ->
  (forall j, (j < n)%nat ->
     queue (env_run (flat_map during (take j ws)) s) = [] /\
     shutdown (env_run (flat_map during (take j ws)) s) = false) /\
  (forall j, (j < m)%nat ->
     shutdown (env_run (flat_map during (take (n + j) ws)) s) = false /\
     (length (queue s ++ flat_map pushed_by (heard ws (n + j)))
        < Z.to_nat maxCount)%nat).
Proof.
  unfold V2.pop_batch.
  destruct (wait_first ws s 0) as [[res s1] k] eqn:Hw.
  pose proof (wait_first_waits ws s 0 res s1 k Hw) as Hfirst. cbn [Nat.add] in Hfirst.
  pose proof (wait_first_gathers ws s 0 res s1 k Hw) as (k' & Hk' & Hq1 & Hres).
  cbn [Nat.add] in Hk'. subst k'.
  pose proof (wait_first_spec ws s 0 res s1 k Hw) as (k' & Hk' & Hs1 & _).
  cbn [Nat.add] in Hk'. subst k'.
  destruct res as [ws1|].
  - destruct Hres as [-> Hm].
    rewrite Hm in Hq1. cbn [flat_map] in Hq1. rewrite app_nil_r in Hq1.
    destruct (shutdown s1 && empty s1).
    + cbn [fst waits]. intros Heq.
      assert (Heq' : repeat FirstWait k ++ repeat (BatchWait 50) 0
                     = repeat FirstWait n ++ repeat (BatchWait 50) m)
        by (cbn [repeat]; now rewrite app_nil_r).
      apply waits_split in Heq' as [<- <-]. split; [exact Hfirst|]. intros j Hj. lia.
    + pose proof (drain_gathers maxCount cleared s1 [] (queue s1) aligned_cleared)
        as [Hi2 Hq2].
      { now rewrite take_nil. }
      { now rewrite drop_nil. }
      pose proof (drain_aligned maxCount cleared s1 aligned_cleared) as Ho2.
      pose proof (drain_shutdown maxCount cleared s1) as Hsd2.
      destruct (drain maxCount cleared s1) as [o s2]. cbn [fst snd app] in *.
      destruct (V2.batch_loop maxCount (drop k ws) o s2 0) as [[o3 s3] m'] eqn:Hb.
      pose proof (batch_loop_waits _ _ _ _ _ _ _ _ (queue s1) s1 Hb Ho2 Hi2 Hq2 Hsd2)
        as Hbatch. cbn [Nat.add] in Hbatch.
      cbn [fst waits]. intros Heq. apply waits_split in Heq as [<- <-].
      split; [exact Hfirst|]. intros j Hj.
      destruct (Hbatch j Hj) as [Hsd Hlen].
      rewrite <- take_take_drop, flat_map_app, env_run_app, <- Hs1.
      split; [exact Hsd|].
      now rewrite heard_add, flat_map_app, app_assoc, <- Hq1.
  - cbn [fst waits]. intros Heq.
    assert (Heq' : repeat FirstWait k ++ repeat (BatchWait 50) 0
                   = repeat FirstWait n ++ repeat (BatchWait 50) m)
      by (cbn [repeat]; now rewrite app_nil_r).
    apply waits_split in Heq' as [<- <-]. split; [exact Hfirst|]. intros j Hj. lia.
Qed.

(** How a call of the second definition goes through its waits and how
    it comes back. *)
Lemma pop_batch_exits (maxCount : Z) (ws : list wake) (s : t) :
  0 < maxCount ->
  exists n m : nat,
    waits (fst (V2.pop_batch maxCount ws s))
      = repeat FirstWait n ++ repeat (BatchWait 50) m /\
    aligned (out (fst (V2.pop_batch maxCount ws s))) /\
    Z.of_nat (length (dps (out (fst (V2.pop_batch maxCount ws s))))) <= maxCount /\
    items_of (out (fst (V2.pop_batch maxCount ws s)))
        ++ queue (snd (V2.pop_batch maxCount ws s))
      = queue s ++ flat_map pushed_by (arrivals ws (fst (V2.pop_batch maxCount ws s))) /\
    ((ret (fst (V2.pop_batch maxCount ws s)) = false /\
      out (fst (V2.pop_batch maxCount ws s)) = cleared /\ m = 0%nat /\
      (ran_out ws n \/
       (shutdown (snd (V2.pop_batch maxCount ws s)) = true /\
        queue (snd (V2.pop_batch maxCount ws s)) = [])))
     \/
     (ret (fst (V2.pop_batch maxCount ws s)) = true /\
      dps (out (fst (V2.pop_batch maxCount ws s))) <> [] /\
      (Z.of_nat (length (dps (out (fst (V2.pop_batch maxCount ws s))))) = maxCount \/
       shutdown (snd (V2.pop_batch maxCount ws s)) = true \/
       ((0 < m)%nat /\ ran_out ws (n + m))))).
Proof.
  intros Hpos.
  pose proof (pop_batch_v2_moved maxCount ws s) as (Hal & Hfifo & _).
  cbn [items_of cleared dps zip_with app] in Hfifo.
  revert Hal Hfifo. unfold arrivals, V2.pop_batch.
  destruct (wait_first ws s 0) as [[res s1] n] eqn:Hw.
  destruct res as [ws1|].
  - apply wait_first_spec in Hw as (k & Hn & Hs1 & -> & Hk & Hc).
    cbn [Nat.add] in Hn. subst n.
    destruct (shutdown s1) eqn:Hsd, (empty s1) eqn:He; cbn [andb negb] in *;
      try discriminate.
    + (* shutdown requested, queue empty *)
      intros Hal Hfifo. exists k, 0%nat. cbn [fst snd ret out waits repeat] in *.
      split; [now rewrite app_nil_r|]. split; [exact Hal|].
      split; [cbn; lia|]. split; [exact Hfifo|].
      left. split; [reflexivity|]. split; [reflexivity|]. split; [reflexivity|].
      right. split; [assumption|].
      unfold empty in He. now destruct (queue s1).
    + (* shutdown requested, items left *)
      pose proof (drain_length maxCount cleared s1 ltac:(cbn; lia)) as [Hle _].
      pose proof (drain_cleared_length maxCount s1) as Hlen.
      pose proof (drain_shutdown maxCount cleared s1) as Hsd2.
      destruct (drain maxCount cleared s1) as [o s2]. cbn [fst snd] in *.
      rewrite batch_loop_skip by (rewrite Hsd2, Hsd; apply andb_false_r).
      intros Hal Hfifo. exists k, 0%nat. cbn [fst snd ret out waits repeat] in *.
      split; [reflexivity|]. split; [exact Hal|].
      split; [exact Hle|]. split; [exact Hfifo|].
      right. unfold empty in He.
      assert (dps o <> []).
      { intros E. rewrite E in Hlen. destruct (queue s1); [discriminate|]. cbn [length] in Hlen. lia. }
      split; [now destruct (dps o)|]. split; [assumption|]. right; left. congruence.
    + (* items there, no shutdown *)
      pose proof (drain_length maxCount cleared s1 ltac:(cbn; lia)) as [Hle _].
      pose proof (drain_cleared_length maxCount s1) as Hlen.
      destruct (drain maxCount cleared s1) as [o s2]. cbn [fst snd] in *.
      destruct (V2.batch_loop maxCount (drop k ws) o s2 0) as [[o3 s3] m] eqn:Hb.
      apply batch_loop_exit in Hb as (Hle3 & Hmono & Hexit); [|assumption].
      intros Hal Hfifo. exists k, m. cbn [fst snd ret out waits] in *.
      split; [reflexivity|]. split; [exact Hal|].
      split; [exact Hle3|]. split; [exact Hfifo|].
      right. unfold empty in He.
      assert (dps o3 <> []).
      { intros E. rewrite E in Hmono. destruct (queue s1); [discriminate|].
        cbn [length] in Hlen, Hmono. lia. }
      split; [now destruct (dps o3)|]. split; [assumption|].
      destruct Hexit as [Hf|[Hs|[Hlt Hr]]]; [tauto|tauto|].
      right; right. split; [lia|]. apply ran_out_drop; [lia|].
      now rewrite Nat.sub_0_r in Hr.
  - apply wait_first_none in Hw as [Hlt Hr]. rewrite Nat.sub_0_r in Hr.
    intros Hal Hfifo. exists n, 0%nat. cbn [fst snd ret out waits repeat] in *.
    split; [now rewrite app_nil_r|]. split; [exact Hal|].
    split; [cbn; lia|]. split; [exact Hfifo|].
    left. split; [reflexivity|]. split; [reflexivity|]. split; [reflexivity|].
    now left.
Qed.

(** C3, as the class has it.  A call of [pop_batch] (second definition)
    for at least one item goes through some waits for the first item and
    then some batching waits of 50 ms each.  It drains the queue up to
    [maxCount]: the batch is exactly the first [maxCount] items of what
    the call has seen, which is the queue as it found it followed by
    whatever arrived during the wake-ups of its waits, the batching ones
    included; the rest stays queued in order, followed by what arrived
    during a wait that ran into its deadline.  It starts a wait for the
    first item only on an empty queue, and a batching wait only while
    the batch has room, and either of them only as long as shutdown has
    not been requested.  Either it returns [false]
    with the vectors empty, because the wait for the first item ran into
    its deadline or because shutdown was requested and the queue is
    empty; or it returns [true] with a batch, and then the batch is
    full, or shutdown has been requested, or the last batching wait ran
    into the 50 ms delay. *)
Theorem pop_batch_batching (maxCount : Z) (ws : list wake) (s : t) :
  0 < maxCount ->
  exists n m : nat,
    waits (fst (V2.pop_batch maxCount ws s))
      = repeat FirstWait n ++ repeat (BatchWait 50) m /\
    aligned (out (fst (V2.pop_batch maxCount ws s))) /\
    Z.of_nat (length (dps (out (fst (V2.pop_batch maxCount ws s))))) <= maxCount /\
    items_of (out (fst (V2.pop_batch maxCount ws s)))
      = take (Z.to_nat maxCount)
             (queue s ++ flat_map pushed_by (heard ws (n + m))) /\
    queue (snd (V2.pop_batch maxCount ws s))
      = drop (Z.to_nat maxCount)
             (queue s ++ flat_map pushed_by (heard ws (n + m)))
          ++ flat_map pushed_by (missed ws (n + m)) /\
    (forall j, (j < n)%nat ->
       queue (env_run (flat_map during (take j ws)) s) = [] /\
       shutdown (env_run (flat_map during (take j ws)) s) = false) /\
    (forall j, (j < m)%nat ->
       shutdown (env_run (flat_map during (take (n + j) ws)) s) = false /\
       (length (queue s ++ flat_map pushed_by (heard ws (n + j)))
          < Z.to_nat maxCount)%nat) /\
    items_of (out (fst (V2.pop_batch maxCount ws s)))
        ++ queue (snd (V2.pop_batch maxCount ws s))
      = queue s ++ flat_map pushed_by (arrivals ws (fst (V2.pop_batch maxCount ws s))) /\
    ((ret (fst (V2.pop_batch maxCount ws s)) = false /\
      out (fst (V2.pop_batch maxCount ws s)) = cleared /\ m = 0%nat /\
      (ran_out ws n \/
       (shutdown (snd (V2.pop_batch maxCount ws s)) = true /\
        queue (snd (V2.pop_batch maxCount ws s)) = [])))
     \/
     (ret (fst (V2.pop_batch maxCount ws s)) = true /\
      dps (out (fst (V2.pop_batch maxCount ws s))) <> [] /\
      (Z.of_nat (length (dps (out (fst (V2.pop_batch maxCount ws s))))) = maxCount \/
       shutdown (snd (V2.pop_batch maxCount ws s)) = true \/
       ((0 < m)%nat /\ ran_out ws (n + m))))).
Proof.
  intros Hpos.
  destruct (pop_batch_exits maxCount ws s Hpos) as (n & m & Hw & Hal & Hle & Hfifo & Hexit).
  pose proof (pop_batch_gathers maxCount ws s) as [Hi Hq]. cbv zeta in Hi, Hq.
  rewrite Hw, length_waits in Hi, Hq.
  pose proof (pop_batch_waits maxCount ws s n m Hw) as [Hfirst Hbatch].
  exists n, m. repeat (split; [assumption|]). exact Hexit.
Qed.

Lemma pop_batch_batching_witness :
  exists n m : nat,
    waits (fst (V2.pop_batch 4 [mkWake [EnvPush (it 4) 0 0] false]
                  (push_batch [it 2; it 3] 1 0 init)))
      = repeat FirstWait n ++ repeat (BatchWait 50) m /\ (n + m = 2)%nat /\
    items_of (out (fst (V2.pop_batch 4 [mkWake [EnvPush (it 4) 0 0] false]
                          (push_batch [it 2; it 3] 1 0 init))))
      = [mkDPITEM (it 2) 1 0; mkDPITEM (it 3) 1 0; mkDPITEM (it 4) 0 0].
Proof.
  destruct (pop_batch_batching 4 [mkWake [EnvPush (it 4) 0 0] false]
              (push_batch [it 2; it 3] 1 0 init) ltac:(lia))
    as (n & m & Hw & _ & _ & Hi & _).
  exists n, m. split; [exact Hw|].
  assert (Hnm : (n + m = 2)%nat).
  { apply (f_equal (@length _)) in Hw. rewrite length_waits in Hw.
    change (2 = n + m)%nat in Hw. lia. }
  split; [exact Hnm|]. rewrite Hnm in Hi. exact Hi.
Defined.

End DPQueueFacts.

(** ** Facts about the DP store *)

Module DPStoreFacts.
Import DPStore.

(** *** The comparator *)

Lemma lex_assoc c1 c2 c3 : lex (lex c1 c2) c3 = lex c1 (lex c2 c3).
Proof. now destruct c1. Qed.

Lemma compare_split a b :
  (a ?= b) = lex (a / 2 ^ 64 ?= b / 2 ^ 64) (a mod 2 ^ 64 ?= b mod 2 ^ 64).
Proof.
  change (2 ^ 64) with 18446744073709551616.
  destruct (Z.compare_spec a b), (Z.compare_spec (a / 18446744073709551616)
                                                 (b / 18446744073709551616)),
           (Z.compare_spec (a mod 18446744073709551616) (b mod 18446744073709551616));
    cbn [lex]; try reflexivity; exfalso; Z.div_mod_to_equations; lia.
Qed.

Lemma limb_div i v : 0 <= i -> limb i v = (v / 2 ^ (64 * i)) mod 2 ^ 64.
Proof.
  intros Hi. unfold limb. rewrite Z.land_ones by lia.
  now rewrite Z.shiftr_div_pow2 by lia.
Qed.

(** On 256-bit values the limb-wise comparison, most significant limb
    first, is the comparison of the values. *)
Lemma compare_x_spec a b :
  0 <= a < 2 ^ 256 -> 0 <= b < 2 ^ 256 -> compare_x a b = (a ?= b).
Proof.
  intros Ha Hb. unfold compare_x. rewrite !limb_div by lia.
  rewrite (compare_split a b).
  rewrite (compare_split (a / 2 ^ 64) (b / 2 ^ 64)).
  rewrite (compare_split (a / 2 ^ 64 / 2 ^ 64) (b / 2 ^ 64 / 2 ^ 64)).
  rewrite !lex_assoc.
  change (64 * 0) with 0. change (64 * 1) with 64.
  change (64 * 2) with (64 + 64). change (64 * 3) with (64 + 64 + 64).
  rewrite !Z.pow_add_r, <- !Z.div_div by lia.
  rewrite !Z.pow_0_r, !Z.div_1_r.
  assert (Hhi : forall v, 0 <= v < 2 ^ 256 ->
            (v / 2 ^ 64 / 2 ^ 64 / 2 ^ 64) mod 2 ^ 64 = v / 2 ^ 64 / 2 ^ 64 / 2 ^ 64).
  { intros v Hv. apply Z.mod_small. rewrite !Z.div_div by lia.
    change (2 ^ 64 * 2 ^ 64 * 2 ^ 64) with (2 ^ 192). split.
    - apply Z.div_pos; lia.
    - apply Z.div_lt_upper_bound; [lia|].
      change (2 ^ 192 * 2 ^ 64) with (2 ^ 256). lia. }
  rewrite (Hhi a Ha), (Hhi b Hb). reflexivity.
Qed.

Section Store.

Variable H : nat.

Lemma sbits_range : 0 <= sbits H <= 256.
Proof. unfold sbits. lia. Qed.

Lemma suffix_of_mod xv : suffix_of H xv = xv mod 2 ^ sbits H.
Proof. unfold suffix_of. apply Z.land_ones. apply sbits_range. Qed.

Lemma suffix_of_range xv : 0 <= suffix_of H xv < 2 ^ sbits H.
Proof.
  rewrite suffix_of_mod. apply Z.mod_pos_bound.
  apply Z.pow_pos_nonneg; [lia|apply sbits_range].
Qed.

Lemma suffix_256 k : 0 <= k < 2 ^ sbits H -> 0 <= k < 2 ^ 256.
Proof.
  intros Hk. pose proof sbits_range.
  assert (2 ^ sbits H <= 2 ^ 256) by (apply Z.pow_le_mono_r; lia). lia.
Qed.

Lemma entry_ok_lookup b i e :
  Forall (entry_ok H) b -> b !! i = Some e -> 0 <= suffix e < 2 ^ sbits H.
Proof.
  intros Hb He. rewrite Forall_forall in Hb.
  apply (Hb e). eapply list_elem_of_lookup_2. exact He.
Qed.

(** *** The binary search *)

Lemma bsearch_found fuel b key :
  0 <= key < 2 ^ sbits H -> Forall (entry_ok H) b ->
  forall lo hi pos e,
    bsearch fuel b key lo hi = Found pos e ->
    b !! pos = Some e /\ suffix e = key.
Proof.
  intros Hkey Hb. induction fuel as [|fuel IH]; intros lo hi pos e Hs;
    cbn [bsearch] in Hs; [discriminate|].
  destruct (hi <=? lo)%nat; [discriminate|].
  destruct (b !! ((lo + hi) / 2)%nat) as [em|] eqn:Hm; [|discriminate].
  assert (Hem : 0 <= suffix em < 2 ^ sbits H).
  { eapply entry_ok_lookup; eassumption. }
  rewrite compare_x_spec in Hs by (now apply suffix_256).
  destruct (Z.compare_spec key (suffix em)) as [Heq|Hlt|Hgt].
  - inversion Hs; subst. now split.
  - eapply IH; eassumption.
  - eapply IH; eassumption.
Qed.

Lemma bsearch_absent fuel b key :
  0 <= key < 2 ^ sbits H -> bucket_ok H b ->
  forall lo hi pos,
    (lo <= hi <= length b)%nat -> (hi - lo <= fuel)%nat ->
    (forall i e, (i < lo)%nat -> b !! i = Some e -> suffix e < key) ->
    (forall i e, (hi <= i)%nat -> b !! i = Some e -> key < suffix e) ->
    bsearch fuel b key lo hi = Absent pos ->
    (pos <= length b)%nat /\
    (forall i e, (i < pos)%nat -> b !! i = Some e -> suffix e < key) /\
    (forall i e, (pos <= i)%nat -> b !! i = Some e -> key < suffix e).
Proof.
  intros Hkey [Hsorted Hb].
  induction fuel as [|fuel IH]; intros lo hi pos Hlohi Hfuel Hbelow Habove Hs;
    cbn [bsearch] in Hs.
  - inversion Hs; subst. split; [lia|]. split; [assumption|].
    intros i e Hi. apply Habove. lia.
  - destruct (Nat.leb_spec hi lo) as [Hle|Hlt].
    + inversion Hs; subst. split; [lia|]. split; [assumption|].
      intros i e Hi. apply Habove. lia.
    + assert (Hmid : (lo <= (lo + hi) / 2 < hi)%nat).
      { split.
        - apply Nat.div_le_lower_bound; lia.
        - apply Nat.Div0.div_lt_upper_bound; lia. }
      destruct (b !! ((lo + hi) / 2)%nat) as [em|] eqn:Hm.
      2:{ apply lookup_ge_None in Hm. lia. }
      assert (Hem : 0 <= suffix em < 2 ^ sbits H).
      { eapply entry_ok_lookup; eassumption. }
      rewrite compare_x_spec in Hs by (now apply suffix_256).
      destruct (Z.compare_spec key (suffix em)) as [Heq|Hlt'|Hgt].
      * discriminate.
      * apply IH in Hs; [assumption|lia|lia|assumption|].
        intros i e Hi He.
        destruct (decide (i = ((lo + hi) / 2)%nat)) as [->|Hne].
        -- congruence.
        -- assert (suffix em < suffix e) by (eapply Hsorted; [exact Hm|exact He|lia]).
           lia.
      * apply IH in Hs; [assumption|lia|lia| |assumption].
        intros i e Hi He.
        destruct (decide (i = ((lo + hi) / 2)%nat)) as [->|Hne].
        -- assert (e = em) by congruence. subst. lia.
        -- assert (suffix e < suffix em) by (eapply Hsorted; [exact He|exact Hm|lia]).
           lia.
Qed.

(** The search of a well-kept bucket: it finds the entry with the key
    if there is one, and otherwise the place where the key belongs. *)
Lemma search_spec b key :
  0 <= key < 2 ^ sbits H -> bucket_ok H b ->
  match search b key with
  | Found pos e => b !! pos = Some e /\ suffix e = key
  | Absent pos =>
    (pos <= length b)%nat /\
    (forall i e, (i < pos)%nat -> b !! i = Some e -> suffix e < key) /\
    (forall i e, (pos <= i)%nat -> b !! i = Some e -> key < suffix e)
  end.
Proof.
  intros Hkey Hb. unfold search.
  destruct (bsearch (length b) b key 0 (length b)) as [pos e|pos] eqn:Hs.
  - eapply bsearch_found; [eassumption|apply Hb|eassumption].
  - eapply bsearch_absent; try eassumption; try lia.
    intros i e Hi He. apply lookup_lt_Some in He. lia.
Qed.

Lemma sorted_inj b i j ei ej :
  sorted b -> b !! i = Some ei -> b !! j = Some ej -> suffix ei = suffix ej -> i = j.
Proof.
  intros Hs Hi Hj Heq.
  destruct (Nat.lt_trichotomy i j) as [Hlt|[->|Hgt]]; [|reflexivity|].
  - pose proof (Hs i j ei ej Hi Hj Hlt). lia.
  - pose proof (Hs j i ej ei Hj Hi Hgt). lia.
Qed.

(** An entry of a well-kept bucket is what the search for its suffix
    finds. *)
Lemma search_finds b e :
  bucket_ok H b -> e ∈ b ->
  exists pos, search b (suffix e) = Found pos e /\ b !! pos = Some e.
Proof.
  intros Hb He. apply list_elem_of_lookup in He as [i Hi].
  assert (Hk : 0 <= suffix e < 2 ^ sbits H)
    by (eapply entry_ok_lookup; [apply Hb|exact Hi]).
  pose proof (search_spec b (suffix e) Hk Hb) as Hs.
  destruct (search b (suffix e)) as [pos e'|pos].
  - destruct Hs as [Hpos Hsuf]. exists pos.
    assert (pos = i) by (eapply sorted_inj; [apply Hb|eassumption..]).
    subst. split; [|assumption]. congruence.
  - destruct Hs as (_ & Hbelow & Habove).
    destruct (Nat.lt_ge_cases i pos) as [Hlt|Hge].
    + pose proof (Hbelow i e Hlt Hi). lia.
    + pose proof (Habove i e Hge Hi). lia.
Qed.

Lemma search_absent b key pos :
  0 <= key < 2 ^ sbits H -> bucket_ok H b -> search b key = Absent pos ->
  forall e, e ∈ b -> suffix e <> key.
Proof.
  intros Hk Hb Hs e He Heq. subst key.
  destruct (search_finds b e Hb He) as (p & Hf & _). congruence.
Qed.

(** *** Insertion at the sorted position *)

Lemma lookup_insert_at pos e b i :
  (pos <= length b)%nat ->
  insert_at pos e b !! i =
    if (i <? pos)%nat then b !! i
    else if (i =? pos)%nat then Some e else b !! (i - 1)%nat.
Proof.
  intros Hpos. unfold insert_at.
  destruct (Nat.ltb_spec i pos) as [Hlt|Hge].
  - rewrite lookup_app_l by (rewrite length_take; lia).
    now apply lookup_take_lt.
  - rewrite lookup_app_r by (rewrite length_take; lia).
    rewrite length_take. replace (Nat.min pos (length b)) with pos by lia.
    destruct (Nat.eqb_spec i pos) as [->|Hne].
    + now rewrite Nat.sub_diag.
    + destruct (i - pos)%nat as [|k] eqn:E; [lia|].
      change ((e :: drop pos b) !! S k) with (drop pos b !! k).
      rewrite lookup_drop. f_equal. lia.
Qed.

Lemma elem_of_insert_at pos e b e' :
  e' ∈ insert_at pos e b <-> e' = e \/ e' ∈ b.
Proof.
  unfold insert_at. rewrite elem_of_app, elem_of_cons.
  assert (Hb : e' ∈ b <-> e' ∈ take pos b \/ e' ∈ drop pos b)
    by (rewrite <- elem_of_app; now rewrite take_drop).
  tauto.
Qed.

Lemma bucket_ok_insert_at pos e b :
  bucket_ok H b -> entry_ok H e -> (pos <= length b)%nat ->
  (forall i e0, (i < pos)%nat -> b !! i = Some e0 -> suffix e0 < suffix e) ->
  (forall i e0, (pos <= i)%nat -> b !! i = Some e0 -> suffix e < suffix e0) ->
  bucket_ok H (insert_at pos e b).
Proof.
  intros [Hs Hb] He Hpos Hbelow Habove. split.
  - intros i j ei ej Hi Hj Hij.
    rewrite lookup_insert_at in Hi, Hj by assumption.
    destruct (Nat.ltb_spec i pos), (Nat.ltb_spec j pos);
      destruct (Nat.eqb_spec i pos), (Nat.eqb_spec j pos); try lia;
      repeat match goal with
             | Hx : Some _ = Some _ |- _ => inversion Hx; subst; clear Hx
             end.
    + eapply Hs; eassumption.
    + eapply Hbelow; eassumption.
    + assert (suffix ei < suffix e) by (eapply Hbelow; eassumption).
      assert (suffix e < suffix ej) by (eapply (Habove (j - 1)%nat); [lia|eassumption]).
      lia.
    + eapply (Habove (j - 1)%nat); [lia|eassumption].
    + eapply Hs; [eassumption..|lia].
  - unfold insert_at. apply Forall_app. split; [now apply Forall_take|].
    constructor; [assumption|now apply Forall_drop].
Qed.

(** *** Overwriting the distance of an entry *)

Lemma shorter_ok e dist : entry_ok H e -> entry_ok H (shorter e dist).
Proof. intros He. exact He. Qed.

Lemma lookup_overwrite (b : list entry) (pos : nat) e v (i : nat) e' :
  b !! pos = Some e -> suffix v = suffix e ->
  <[pos := v]> b !! i = Some e' ->
  exists e0, b !! i = Some e0 /\ suffix e' = suffix e0 /\
             ((i = pos /\ e' = v) \/ (i <> pos /\ e' = e0)).
Proof.
  intros Hpos Hv Hi. destruct (decide (i = pos)) as [->|Hne].
  - rewrite list_lookup_insert_eq in Hi by (eapply lookup_lt_Some; eassumption).
    inversion Hi; subst. exists e. repeat split; tauto.
  - rewrite list_lookup_insert_ne in Hi by congruence.
    exists e'. repeat split; tauto.
Qed.

Lemma bucket_ok_overwrite b pos e v :
  bucket_ok H b -> b !! pos = Some e -> suffix v = suffix e -> entry_ok H v ->
  bucket_ok H (<[pos := v]> b).
Proof.
  intros [Hs Hb] Hpos Hv Hok. split.
  - intros i j ei ej Hi Hj Hij.
    destruct (lookup_overwrite b pos e v i ei Hpos Hv Hi) as (ei0 & Hi0 & -> & _).
    destruct (lookup_overwrite b pos e v j ej Hpos Hv Hj) as (ej0 & Hj0 & -> & _).
    eapply Hs; eassumption.
  - now apply Forall_insert.
Qed.

Lemma elem_of_overwrite b pos e v e' :
  sorted b -> b !! pos = Some e -> suffix v = suffix e ->
  (e' ∈ <[pos := v]> b <-> e' = v \/ (e' ∈ b /\ suffix e' <> suffix e)).
Proof.
  intros Hs Hpos Hv. split.
  - intros Hin. apply list_elem_of_lookup in Hin as [i Hi].
    destruct (lookup_overwrite b pos e v i e' Hpos Hv Hi)
      as (e0 & Hi0 & Hsuf & [[-> ->]|[Hne ->]]); [now left|right].
    split; [eapply list_elem_of_lookup_2; eassumption|].
    intros Heq. apply Hne. eapply sorted_inj; eassumption.
  - intros [->|[Hin Hne]].
    + eapply list_elem_of_lookup_2. apply list_lookup_insert_eq.
      eapply lookup_lt_Some; eassumption.
    + apply list_elem_of_lookup in Hin as [i Hi].
      eapply (list_elem_of_lookup_2 _ i). rewrite list_lookup_insert_ne; [assumption|].
      intros ->. congruence.
Qed.

(** *** Buckets and x *)

Lemma pow2_H : Z.of_nat (2 ^ H) = 2 ^ Z.of_nat H.
Proof. rewrite Nat2Z.inj_pow. reflexivity. Qed.

Lemma bucketIdx_lt xv : (bucketIdx H xv < 2 ^ H)%nat.
Proof.
  unfold bucketIdx. pose proof sbits_range as Hsb.
  assert (Hm : 0 <= xv mod 2 ^ 256 < 2 ^ 256) by (apply Z.mod_pos_bound; lia).
  rewrite Z.shiftr_div_pow2 by lia.
  assert (Hp : 0 < 2 ^ sbits H) by (apply Z.pow_pos_nonneg; lia).
  assert (Hq : 0 <= xv mod 2 ^ 256 / 2 ^ sbits H) by (apply Z.div_pos; lia).
  apply Nat2Z.inj_lt. rewrite Z2Nat.id, pow2_H by assumption.
  apply Z.div_lt_upper_bound; [assumption|].
  rewrite <- Z.pow_add_r by lia.
  assert (2 ^ 256 <= 2 ^ (sbits H + Z.of_nat H))
    by (apply Z.pow_le_mono_r; unfold sbits; lia).
  lia.
Qed.

(** The bucket index and the suffix together are the x. *)
Lemma x_split xv yv :
  0 <= xv < 2 ^ 256 -> 0 <= yv < 2 ^ 256 ->
  bucketIdx H xv = bucketIdx H yv -> suffix_of H xv = suffix_of H yv -> xv = yv.
Proof.
  intros Hx Hy Hb Hs. rewrite !suffix_of_mod in Hs. unfold bucketIdx in Hb.
  pose proof sbits_range as Hsb.
  rewrite !Z.mod_small, !Z.shiftr_div_pow2 in Hb by lia.
  assert (Hp : 0 < 2 ^ sbits H) by (apply Z.pow_pos_nonneg; lia).
  apply Z2Nat.inj in Hb; [|apply Z.div_pos; lia..].
  rewrite (Z.div_mod xv (2 ^ sbits H)), (Z.div_mod yv (2 ^ sbits H)) by lia.
  congruence.
Qed.

Lemma bucket_exists st xv :
  wf H st -> exists b, buckets st !! bucketIdx H xv = Some b /\ bucket_ok H b.
Proof.
  intros [Hlen Hall].
  destruct (lookup_lt_is_Some_2 (buckets st) (bucketIdx H xv)) as [b Hb].
  - rewrite Hlen. apply bucketIdx_lt.
  - exists b. split; [assumption|].
    rewrite Forall_forall in Hall. apply Hall.
    eapply list_elem_of_lookup_2. exact Hb.
Qed.

Lemma bucket_unique b e1 e2 :
  bucket_ok H b -> e1 ∈ b -> e2 ∈ b -> suffix e1 = suffix e2 -> e1 = e2.
Proof.
  intros [Hs _] H1 H2 Heq.
  apply list_elem_of_lookup in H1 as [i Hi]. apply list_elem_of_lookup in H2 as [j Hj].
  assert (i = j) by (eapply sorted_inj; eassumption). subst. congruence.
Qed.

Lemma entry_of_ok dp : entry_ok H (entry_of H dp).
Proof. split; [apply suffix_of_range|reflexivity]. Qed.

Lemma herd_eqb_eq a b : herd_eqb a b = true <-> a = b.
Proof. destruct a, b; cbn; split; congruence. Qed.

(** *** [Add] keeps its contract *)

Theorem Add_contract dp st :
  wf H st -> contract H dp st (fst (Add H dp st)) (snd (Add H dp st)).
Proof.
  intros Hwf. destruct (bucket_exists st (dp_x dp) Hwf) as (b & Hb & Hok).
  pose proof (suffix_of_range (dp_x dp)) as Hk.
  pose proof (search_spec b _ Hk Hok) as Hs.
  unfold Add. rewrite Hb.
  destruct (search b (suffix_of H (dp_x dp))) as [pos e|pos] eqn:Hsearch.
  - destruct Hs as [Hpos Hsuf].
    assert (Hin : e ∈ b) by (eapply list_elem_of_lookup_2; exact Hpos).
    destruct (herd_eqb (e_herd e) (herd_of (dp_kIdx dp))) eqn:Hh.
    + apply herd_eqb_eq in Hh.
      destruct (Z.eqb_spec (e_dist e) (dp_dist dp)) as [Hd|Hd]; cbn [fst snd].
      * eapply add_true_duplicate; eassumption.
      * eapply add_same_herd; try eassumption.
        -- eapply bucket_ok_overwrite; [eassumption..|reflexivity|].
           apply shorter_ok. destruct Hok as [_ Hall].
           rewrite Forall_forall in Hall. now apply Hall.
        -- intros e'. rewrite <- Hsuf.
           apply elem_of_overwrite; [apply Hok|assumption|reflexivity].
        -- intros Heq. rewrite Heq. now apply list_insert_id.
    + cbn [fst snd].
      assert (Hne : e_herd e <> herd_of (dp_kIdx dp)).
      { intros Heq. apply herd_eqb_eq in Heq. congruence. }
      replace (match herd_of (dp_kIdx dp) with
               | TAME => mkEvent dp (stored_dp (dp_x dp) e)
               | WILD => mkEvent (stored_dp (dp_x dp) e) dp
               end) with (event_of dp e) by reflexivity.
      eapply add_cross_herd; eassumption.
  - destruct Hs as (Hpos & Hbelow & Habove). cbn [fst snd].
    eapply add_ok; try eassumption.
    + eapply search_absent; eassumption.
    + apply bucket_ok_insert_at; try assumption. apply entry_of_ok.
    + intros e'. apply elem_of_insert_at.
Qed.

(** *** What [Add] does to the entries held *)

Lemma holds_unique st xv e1 e2 :
  wf H st -> holds H st xv e1 -> holds H st xv e2 -> e1 = e2.
Proof.
  intros Hwf (b1 & Hb1 & Hin1 & Hs1) (b2 & Hb2 & Hin2 & Hs2).
  destruct (bucket_exists st xv Hwf) as (b & Hb & Hok).
  assert (b1 = b) by congruence. assert (b2 = b) by congruence. subst.
  eapply bucket_unique; try eassumption. congruence.
Qed.

Lemma wf_insert st idx b b' c ev :
  wf H st -> buckets st !! idx = Some b -> bucket_ok H b' ->
  wf H (mkStore (<[idx := b']> (buckets st)) c ev).
Proof.
  intros [Hlen Hall] Hb Hok. split; cbn [buckets].
  - now rewrite length_insert.
  - now apply Forall_insert.
Qed.

Lemma wf_Add dp st : wf H st -> wf H (snd (Add H dp st)).
Proof.
  intros Hwf. pose proof (Add_contract dp st Hwf) as Hc.
  destruct (Add H dp st) as [r st']. cbn [fst snd] in *.
  inversion Hc; subst; try assumption.
  - eapply wf_insert; eassumption.
  - eapply wf_insert; eassumption.
Qed.

Lemma wf_Adds dps : forall st, wf H st -> wf H (Adds H dps st).
Proof.
  induction dps as [|dp dps IH]; intros st Hwf; [assumption|].
  cbn [Adds fold_left]. apply IH. now apply wf_Add.
Qed.

Lemma wf_empty : wf H (empty_store H).
Proof.
  split; cbn [buckets empty_store].
  - apply length_replicate.
  - apply Forall_replicate. split; [|constructor].
    intros i j ei ej Hi. rewrite lookup_nil in Hi. discriminate.
Qed.

Lemma holds_insert st idx (b b' : list entry) c ev yv e' :
  buckets st !! idx = Some b ->
  holds H (mkStore (<[idx := b']> (buckets st)) c ev) yv e' <->
  (bucketIdx H yv = idx /\ e' ∈ b' /\ suffix e' = suffix_of H yv) \/
  (bucketIdx H yv <> idx /\ holds H st yv e').
Proof.
  intros Hb. unfold holds. cbn [buckets].
  destruct (decide (bucketIdx H yv = idx)) as [->|Hne].
  - rewrite list_lookup_insert_eq by (eapply lookup_lt_Some; eassumption).
    split.
    + intros (b0 & Hb0 & Hin & Hs). inversion Hb0; subst. left. tauto.
    + intros [(_ & Hin & Hs)|[Hne _]]; [|congruence]. exists b'. tauto.
  - rewrite list_lookup_insert_ne by congruence. split.
    + intros Hh. right. tauto.
    + intros [[Heq _]|[_ Hh]]; [congruence|assumption].
Qed.

(** [Add] at the x of the DP: the four cases, told by the entry the
    store holds for that x. *)
Lemma Add_at_x dp st :
  wf H st ->
  ((forall e, ~ holds H st (dp_x dp) e) /\
   fst (Add H dp st) = ADD_OK /\
   holds H (snd (Add H dp st)) (dp_x dp) (entry_of H dp) /\
   sameHerd (snd (Add H dp st)) = sameHerd st /\
   events (snd (Add H dp st)) = events st)
  \/
  (exists e, holds H st (dp_x dp) e /\
     e_herd e = herd_of (dp_kIdx dp) /\ e_dist e = dp_dist dp /\
     Add H dp st = (SAME_HERD_DUPLICATE, st))
  \/
  (exists e, holds H st (dp_x dp) e /\
     e_herd e = herd_of (dp_kIdx dp) /\ e_dist e <> dp_dist dp /\
     fst (Add H dp st) = SAME_HERD_DUPLICATE /\
     holds H (snd (Add H dp st)) (dp_x dp) (shorter e (dp_dist dp)) /\
     sameHerd (snd (Add H dp st)) = sameHerd st + 1 /\
     events (snd (Add H dp st)) = events st /\
     (shorter e (dp_dist dp) = e -> buckets (snd (Add H dp st)) = buckets st))
  \/
  (exists e, holds H st (dp_x dp) e /\
     e_herd e <> herd_of (dp_kIdx dp) /\
     Add H dp st =
       (CROSS_HERD_COLLISION,
        mkStore (buckets st) (sameHerd st) (events st ++ [event_of dp e]))).
Proof.
  intros Hwf. pose proof (Add_contract dp st Hwf) as Hc.
  destruct (Add H dp st) as [r st'] eqn:HAdd. cbn [fst snd] in *.
  inversion Hc as [b b' Hb Hnone Hok' Hin'|b e Hb Hin Hs Hh Hd
                   |b b' e Hb Hin Hs Hh Hd Hok' Hin' Hsame|b e Hb Hin Hs Hh]; subst.
  - left. split; [|split; [reflexivity|split; [|split; reflexivity]]].
    + intros e (b0 & Hb0 & Hin & Hs). assert (b0 = b) by congruence. subst.
      now apply (Hnone e).
    + apply (holds_insert st _ b b' _ _ _ _ Hb). left.
      split; [reflexivity|]. split; [|reflexivity]. apply Hin'. now left.
  - right; left. exists e. repeat split; try assumption. now exists b.
  - right; right; left. exists e.
    split; [now exists b|]. split; [assumption|]. split; [assumption|].
    split; [reflexivity|]. split; [|split; [reflexivity|split; [reflexivity|]]].
    + apply (holds_insert st _ b b' _ _ _ _ Hb). left.
      split; [reflexivity|]. split; [|exact Hs]. apply Hin'. now left.
    + intros Heq. cbn [buckets]. rewrite (Hsame Heq). now apply list_insert_id.
  - right; right; right. exists e. repeat split; try assumption. now exists b.
Qed.

(** [Add] leaves the entries of every other x alone. *)
Lemma Add_frame dp st yv e' :
  wf H st -> 0 <= dp_x dp < 2 ^ 256 -> 0 <= yv < 2 ^ 256 -> yv <> dp_x dp ->
  holds H (snd (Add H dp st)) yv e' <-> holds H st yv e'.
Proof.
  intros Hwf Hx Hy Hne. pose proof (Add_contract dp st Hwf) as Hc.
  destruct (Add H dp st) as [r st']. cbn [fst snd] in *.
  assert (Hkey : bucketIdx H yv = bucketIdx H (dp_x dp) ->
                 suffix_of H yv <> suffix_of H (dp_x dp)).
  { intros Hi Hs. apply Hne. now apply x_split. }
  inversion Hc as [b b' Hb Hnone Hok' Hin'|b e Hb Hin Hs Hh Hd
                   |b b' e Hb Hin Hs Hh Hd Hok' Hin' Hsame|b e Hb Hin Hs Hh]; subst.
  - rewrite (holds_insert st _ b b' _ _ _ _ Hb). split.
    + intros [(Hi & Hin & Hs)|[_ Hh]]; [|assumption].
      exists b. rewrite Hi. split; [assumption|]. split; [|assumption].
      apply Hin' in Hin as [->|Hin]; [|assumption].
      exfalso. now apply (Hkey Hi).
    + intros Hh. destruct (decide (bucketIdx H yv = bucketIdx H (dp_x dp))) as [Hi|Hi];
        [left|right; tauto].
      destruct Hh as (b0 & Hb0 & Hin & Hs). rewrite Hi in Hb0.
      assert (b0 = b) by congruence. subst.
      split; [assumption|]. split; [|assumption]. apply Hin'. now right.
  - reflexivity.
  - rewrite (holds_insert st _ b b' _ _ _ _ Hb). split.
    + intros [(Hi & Hin0 & Hs0)|[_ Hh0]]; [|assumption].
      exists b. rewrite Hi. split; [assumption|]. split; [|assumption].
      apply Hin' in Hin0 as [->|[Hin0 _]]; [|assumption].
      exfalso. apply (Hkey Hi). rewrite <- Hs0. exact Hs.
    + intros Hh0. destruct (decide (bucketIdx H yv = bucketIdx H (dp_x dp))) as [Hi|Hi];
        [left|right; tauto].
      destruct Hh0 as (b0 & Hb0 & Hin0 & Hs0). rewrite Hi in Hb0.
      assert (b0 = b) by congruence. subst.
      split; [assumption|]. split; [|assumption]. apply Hin'. right.
      split; [assumption|]. rewrite Hs0. now apply Hkey.
  - reflexivity.
Qed.

Lemma event_of_x dp e :
  dp_x (tame (event_of dp e)) = dp_x dp /\ dp_x (wild (event_of dp e)) = dp_x dp.
Proof. unfold event_of. now destruct (herd_of (dp_kIdx dp)). Qed.

Lemma Add_events_frame dp st yv :
  wf H st -> yv <> dp_x dp ->
  events_for yv (snd (Add H dp st)) = events_for yv st.
Proof.
  intros Hwf Hne. pose proof (Add_contract dp st Hwf) as Hc.
  destruct (Add H dp st) as [r st']. cbn [fst snd] in *.
  inversion Hc; subst; try reflexivity.
  unfold events_for. cbn [events]. rewrite filter_app, filter_cons_False.
  - now rewrite filter_nil, app_nil_r.
  - destruct (event_of_x dp e) as [-> _]. congruence.
Qed.

Lemma holds_buckets st st' xv e :
  buckets st' = buckets st -> holds H st' xv e <-> holds H st xv e.
Proof. intros Hb. unfold holds. now rewrite Hb. Qed.

(** *** Same-herd collisions *)

(** C6. An [Add] whose x matches a stored entry of the same herd with
    another distance is a SAME_HERD_DUPLICATE: the same-herd counter
    goes up by one, no collision event is emitted, and the entry
    stored for that x afterwards carries the shorter of the two
    distances. *)
Theorem same_herd_duplicate (dp : DP) (st : t) (e : entry) :
  wf H st ->
  holds H st (dp_x dp) e ->
  e_herd e = herd_of (dp_kIdx dp) ->
  e_dist e <> dp_dist dp ->
  fst (Add H dp st) = SAME_HERD_DUPLICATE /\
  sameHerd (snd (Add H dp st)) = sameHerd st + 1 /\
  events (snd (Add H dp st)) = events st /\
  holds H (snd (Add H dp st)) (dp_x dp) (shorter e (dp_dist dp)) /\
  (forall e', holds H (snd (Add H dp st)) (dp_x dp) e' ->
              e_dist e' = Z.min (e_dist e) (dp_dist dp) /\ e_herd e' = e_herd e).
Proof.
  intros Hwf Hh Hherd Hdist.
  destruct (Add_at_x dp st Hwf)
    as [(Hnone & _)|[(e0 & Hh0 & _ & Hd0 & _)|[(e0 & Hh0 & _ & _ & Hr & Hh1 & Hc & Hev & _)
       |(e0 & Hh0 & Hne & _)]]].
  - exfalso. now apply (Hnone e).
  - assert (e0 = e) by (eapply holds_unique; eassumption). subst. contradiction.
  - assert (e0 = e) by (eapply holds_unique; eassumption). subst.
    repeat split; try assumption;
      assert (e' = shorter e (dp_dist dp))
        by (eapply holds_unique; [apply wf_Add; exact Hwf|eassumption..]);
      now subst.
  - assert (e0 = e) by (eapply holds_unique; eassumption). subst. contradiction.
Qed.

End Store.

(** Scenario 4 of the specification: { x=X, dist=10, kIdx=2 } then
    { x=X, dist=14, kIdx=4 }. *)
Lemma same_herd_duplicate_witness :
  let st := Adds 2 [mkDP X 10 2] (empty_store 2) in
  let dp := mkDP X 14 4 in
  fst (Add 2 dp st) = SAME_HERD_DUPLICATE /\
  sameHerd (snd (Add 2 dp st)) = sameHerd st + 1 /\
  events (snd (Add 2 dp st)) = events st /\
  holds 2 (snd (Add 2 dp st)) X (mkEntry 12345 10 TAME 2) /\
  (forall e', holds 2 (snd (Add 2 dp st)) X e' ->
              e_dist e' = Z.min 10 14 /\ e_herd e' = TAME).
Proof.
  cbv zeta.
  apply (same_herd_duplicate 2 (mkDP X 14 4) (Adds 2 [mkDP X 10 2] (empty_store 2))
           (mkEntry 12345 10 TAME 2)).
  - apply wf_Adds, wf_empty.
  - exists [mkEntry 12345 10 TAME 2].
    split; [reflexivity|]. split; [apply list_elem_of_singleton; reflexivity|reflexivity].
  - reflexivity.
  - cbn. lia.
Defined.


(** *** Counting the cross-herd matches when the stored entry stays *)

Section Sequences.

Variable H : nat.

Lemma herd_held_iff st st' xv h :
  (forall e, holds H st' xv e <-> holds H st xv e) ->
  herd_held H st xv h -> herd_held H st' xv h.
Proof.
  intros Hiff. destruct h as [h0|]; cbn [herd_held].
  - intros (e & He & Hh). exists e. split; [now apply Hiff|assumption].
  - intros Hnone e He. apply (Hnone e). now apply Hiff.
Qed.

Lemma events_for_snoc xv st c ev :
  dp_x (tame ev) = xv ->
  length (events_for xv (mkStore (buckets st) c (events st ++ [ev])))
    = S (length (events_for xv st)).
Proof.
  intros Hx. unfold events_for. cbn [events].
  rewrite filter_app, filter_cons_True by assumption.
  rewrite filter_nil, length_app. cbn. lia.
Qed.

(** The events a sequence of Adds raises for an x are as many as it
    has DPs that meet a stored entry of the other herd. *)
Lemma Adds_count xv dps : forall st h,
  wf H st -> Forall well_formed dps -> 0 <= xv < 2 ^ 256 ->
  herd_held H st xv h ->
  length (events_for xv (Adds H dps st))
    = (length (events_for xv st) + cross_count xv h dps)%nat.
Proof.
  induction dps as [|dp dps IH]; intros st h Hwf Hall Hxv Hheld.
  - cbn. lia.
  - inversion Hall as [|dp' dps' Hdp Hall']; subst.
    change (Adds H (dp :: dps) st) with (Adds H dps (snd (Add H dp st))).
    pose proof (wf_Add H dp st Hwf) as Hwf1.
    cbn [cross_count]. destruct (Z.eqb_spec (dp_x dp) xv) as [Heq|Hne].
    + subst xv.
      destruct (Add_at_x H dp st Hwf)
        as [(Hnone & _ & Hh1 & _ & Hev)|[(e & Hh & Hherd & _ & HA)
           |[(e & Hh & Hherd & _ & _ & Hh1 & _ & Hev & _)|(e & Hh & Hne & HA)]]].
      * (* first DP with this x *)
        destruct h as [h0|].
        { destruct Hheld as (e & He & _). exfalso. now apply (Hnone e). }
        rewrite (IH _ (Some (herd_of (dp_kIdx dp)))); try assumption.
        -- unfold events_for. now rewrite Hev.
        -- exists (entry_of H dp). split; [assumption|reflexivity].
      * (* true duplicate *)
        destruct h as [h0|]; [|exfalso; now apply (Hheld e)].
        destruct Hheld as (e0 & He0 & Hh0).
        assert (e0 = e) by (eapply (holds_unique H _ _ _ _ Hwf); eassumption). subst e0.
        rewrite HA. cbn [snd].
        rewrite (IH st (Some h0)); try assumption.
        -- replace (herd_eqb h0 (herd_of (dp_kIdx dp))) with true; [reflexivity|].
           symmetry. apply herd_eqb_eq. congruence.
        -- exists e. now split.
      * (* same herd *)
        destruct h as [h0|]; [|exfalso; now apply (Hheld e)].
        destruct Hheld as (e0 & He0 & Hh0).
        assert (e0 = e) by (eapply (holds_unique H _ _ _ _ Hwf); eassumption). subst e0.
        rewrite (IH _ (Some h0)); try assumption.
        -- replace (herd_eqb h0 (herd_of (dp_kIdx dp))) with true.
           ++ unfold events_for. now rewrite Hev.
           ++ symmetry. apply herd_eqb_eq. congruence.
        -- exists (shorter e (dp_dist dp)). split; [assumption|exact Hh0].
      * (* the other herd *)
        destruct h as [h0|]; [|exfalso; now apply (Hheld e)].
        destruct Hheld as (e0 & He0 & Hh0).
        assert (e0 = e) by (eapply (holds_unique H _ _ _ _ Hwf); eassumption). subst e0.
        rewrite HA in *. cbn [snd] in *.
        rewrite (IH _ (Some h0)); try assumption.
        -- replace (herd_eqb h0 (herd_of (dp_kIdx dp))) with false.
           ++ rewrite events_for_snoc by apply event_of_x. lia.
           ++ symmetry. apply not_true_is_false. rewrite herd_eqb_eq. congruence.
        -- exists e. split; [exact He0|exact Hh0].
    + rewrite (IH _ h); try assumption.
      * now rewrite Add_events_frame by (assumption || congruence).
      * apply (herd_held_iff st); [|assumption].
        intros e. apply Add_frame; try assumption; [apply Hdp|congruence].
Qed.

Lemma cross_count_some xv h0 dps dp :
  dp ∈ dps -> dp_x dp = xv -> herd_of (dp_kIdx dp) <> h0 ->
  (1 <= cross_count xv (Some h0) dps)%nat.
Proof.
  intros Hin Hx Hh. induction dps as [|dp0 dps IH]; [now apply elem_of_nil in Hin|].
  cbn [cross_count]. apply elem_of_cons in Hin as [<-|Hin].
  - rewrite Hx, Z.eqb_refl.
    replace (herd_eqb h0 (herd_of (dp_kIdx dp))) with false; [lia|].
    symmetry. apply not_true_is_false. rewrite herd_eqb_eq. congruence.
  - specialize (IH Hin). destruct (dp_x dp0 =? xv); lia.
Qed.

Lemma cross_count_none xv dps dpi dpj :
  dpi ∈ dps -> dpj ∈ dps -> dp_x dpi = xv -> dp_x dpj = xv ->
  herd_of (dp_kIdx dpi) <> herd_of (dp_kIdx dpj) ->
  (1 <= cross_count xv None dps)%nat.
Proof.
  intros Hi Hj Hxi Hxj Hh. induction dps as [|dp0 dps IH]; [now apply elem_of_nil in Hi|].
  cbn [cross_count]. destruct (Z.eqb_spec (dp_x dp0) xv) as [Heq|Hne].
  - destruct (decide (herd_of (dp_kIdx dpi) = herd_of (dp_kIdx dp0))) as [Hsame|Hdiff].
    + apply (cross_count_some xv _ dps dpj); [|assumption|congruence].
      apply elem_of_cons in Hj as [->|Hj]; [congruence|assumption].
    + apply (cross_count_some xv _ dps dpi); [|assumption|assumption].
      apply elem_of_cons in Hi as [->|Hi]; [congruence|assumption].
  - apply IH.
    + apply elem_of_cons in Hi as [->|Hi]; [congruence|assumption].
    + apply elem_of_cons in Hj as [->|Hj]; [congruence|assumption].
Qed.

Lemma Add_events_ok dp st :
  wf H st -> Forall event_ok (events st) ->
  Forall event_ok (events (snd (Add H dp st))).
Proof.
  intros Hwf Hev. pose proof (Add_contract H dp st Hwf) as Hc.
  destruct (bucket_exists H st (dp_x dp) Hwf) as (b0 & Hb0 & [_ Hok]).
  destruct (Add H dp st) as [r st']. cbn [fst snd] in *.
  inversion Hc as [| | |b e Hb Hin Hs Hh]; subst; try assumption.
  cbn [events]. apply Forall_app. split; [assumption|]. constructor; [|constructor].
  assert (b = b0) by congruence. subst b.
  rewrite Forall_forall in Hok. destruct (Hok e Hin) as [_ Hherd].
  unfold event_ok, event_of.
  destruct (herd_of (dp_kIdx dp)) eqn:Hd; cbn [tame wild stored_dp dp_kIdx dp_x];
    rewrite <- Hherd; destruct (e_herd e); repeat split; congruence.
Qed.

Lemma Adds_events_ok dps : forall st,
  wf H st -> Forall event_ok (events st) -> Forall event_ok (events (Adds H dps st)).
Proof.
  induction dps as [|dp dps IH]; intros st Hwf Hev; [assumption|].
  change (Adds H (dp :: dps) st) with (Adds H dps (snd (Add H dp st))).
  apply IH; [now apply wf_Add|now apply Add_events_ok].
Qed.

End Sequences.

End DPStoreFacts.

(** ** Facts about [Add] that do not depend on what a cross-herd match
    leaves stored *)

Module CrossHerdFacts.
Import DPStore CrossHerd DPStoreFacts.

Section Store.

Variable H : nat.
Variable g : policy.

(** *** Dropping an entry of a bucket *)



(** *** The bucket after a cross-herd match *)



(** *** One [AddWith] *)

















(** *** Sequences *)












End Store.



(** *** Cross-herd collisions over a sequence of Adds *)


(** *** Adding the same DP twice *)






End CrossHerdFacts.

(** ** Facts about the wire format *)

Module WireFacts.
Import DPStore Wire DPStoreFacts.

Lemma length_be_bytes n v : length (be_bytes n v) = n.
Proof. induction n as [|k IH]; cbn [be_bytes length]; congruence. Qed.

Lemma be_bytes_bytes n v : Forall is_byte (be_bytes n v).
Proof.
  induction n as [|k IH]; cbn [be_bytes]; constructor; [|assumption].
  unfold is_byte. apply Z.mod_pos_bound. lia.
Qed.

Lemma of_be_acc bs : forall acc,
  fold_left (fun a b => a * 256 + b) bs acc
    = acc * 256 ^ Z.of_nat (length bs) + of_be bs.
Proof.
  unfold of_be. induction bs as [|b bs IH]; intros acc.
  - cbn. lia.
  - cbn [fold_left length]. rewrite IH, (IH (0 * 256 + b)).
    rewrite Nat2Z.inj_succ, Z.pow_succ_r by lia. lia.
Qed.

Lemma of_be_cons b bs : of_be (b :: bs) = b * 256 ^ Z.of_nat (length bs) + of_be bs.
Proof. unfold of_be at 1. cbn [fold_left]. rewrite of_be_acc. lia. Qed.

(** Reading back the [n] bytes of [v] gives [v] modulo [256^n]. *)
Lemma of_be_be_bytes n v : of_be (be_bytes n v) = v mod 256 ^ Z.of_nat n.
Proof.
  induction n as [|k IH].
  - cbn. now rewrite Z.mod_1_r.
  - cbn [be_bytes]. rewrite of_be_cons, length_be_bytes, IH.
    rewrite Nat2Z.inj_succ, Z.pow_succ_r by lia.
    rewrite (Z.mul_comm 256), Z.rem_mul_r by lia. lia.
Qed.

Lemma of_be_be_bytes_small n v :
  0 <= v < 256 ^ Z.of_nat n -> of_be (be_bytes n v) = v.
Proof. intros Hv. rewrite of_be_be_bytes. now apply Z.mod_small. Qed.

Lemma limb_range i v : 0 <= limb i v < 2 ^ 64.
Proof.
  unfold limb. rewrite Z.land_ones by lia. apply Z.mod_pos_bound. lia.
Qed.

(** A 256-bit value is the sum of its four limbs. *)
Lemma limbs_sum v :
  0 <= v < 2 ^ 256 ->
  limb 3 v * 2 ^ 192 + limb 2 v * 2 ^ 128 + limb 1 v * 2 ^ 64 + limb 0 v = v.
Proof.
  intros Hv. rewrite !limb_div by lia.
  change (64 * 0) with 0. change (64 * 1) with 64.
  change (64 * 2) with 128. change (64 * 3) with 192.
  rewrite Z.pow_0_r, Z.div_1_r.
  change (2 ^ 256) with
    115792089237316195423570985008687907853269984665640564039457584007913129639936 in Hv.
  change (2 ^ 192) with 6277101735386680763835789423207666416102355444464034512896.
  change (2 ^ 128) with 340282366920938463463374607431768211456.
  change (2 ^ 64) with 18446744073709551616.
  Z.div_mod_to_equations. lia.
Qed.

Lemma pow256_8 : 256 ^ Z.of_nat 8 = 2 ^ 64.
Proof. reflexivity. Qed.

Lemma length_encode_x xv : length (encode_x xv) = 32%nat.
Proof. unfold encode_x. now rewrite !length_app, !length_be_bytes. Qed.

Ltac lengths :=
  rewrite ?length_app, ?length_encode_x, ?length_be_bytes; reflexivity.

Lemma decode_encode_x xv : 0 <= xv < 2 ^ 256 -> decode_x (encode_x xv) = xv.
Proof.
  intros Hx. unfold decode_x, encode_x.
  assert (Hrd : forall i, of_be (be_bytes 8 (limb i xv)) = limb i xv).
  { intros i. apply of_be_be_bytes_small. rewrite pow256_8. apply limb_range. }
  rewrite take_app_length' by lengths.
  rewrite (drop_app_length' _ _ 8) by lengths.
  rewrite take_app_length' by lengths.
  rewrite (app_assoc (be_bytes 8 (limb 3 xv))).
  rewrite (drop_app_length' _ _ 16) by lengths.
  rewrite take_app_length' by lengths.
  rewrite (app_assoc (be_bytes 8 (limb 3 xv) ++ be_bytes 8 (limb 2 xv))).
  rewrite (drop_app_length' _ _ 24) by lengths.
  rewrite take_ge by (rewrite length_be_bytes; lia).
  rewrite !Hrd. now apply limbs_sum.
Qed.

Lemma length_encode_dp dp : length (encode_dp dp) = 68%nat.
Proof.
  unfold encode_dp. now rewrite !length_app, length_encode_x, !length_be_bytes.
Qed.

Lemma decode_encode_dp dp :
  well_formed dp -> decode_dp (encode_dp dp) = Some dp.
Proof.
  intros (Hx & Hd & Hk). unfold decode_dp.
  rewrite length_encode_dp. change (Z.to_nat ITEM_SIZE) with 68%nat.
  rewrite Nat.eqb_refl. unfold encode_dp.
  rewrite take_app_length' by lengths.
  rewrite (drop_app_length' _ _ 32) by lengths.
  rewrite take_app_length' by lengths.
  rewrite (app_assoc (encode_x (dp_x dp))).
  rewrite (drop_app_length' _ _ 56) by lengths.
  rewrite take_app_length' by lengths.
  rewrite decode_encode_x by assumption.
  rewrite !of_be_be_bytes_small.
  - now destruct dp.
  - change (256 ^ Z.of_nat 8) with (2 ^ 64). exact Hk.
  - change (256 ^ Z.of_nat 24) with (2 ^ 192). exact Hd.
Qed.

Lemma length_flat_encode dps :
  length (flat_map encode_dp dps) = (68 * length dps)%nat.
Proof.
  induction dps as [|dp dps IH]; [reflexivity|].
  cbn [flat_map]. rewrite length_app, length_encode_dp, IH. cbn [length]. lia.
Qed.

Lemma length_batch_payload dps :
  length (batch_payload dps) = (4 + 68 * length dps)%nat.
Proof.
  unfold batch_payload. now rewrite length_app, length_be_bytes, length_flat_encode.
Qed.

Lemma encode_dp_bytes dp : Forall is_byte (encode_dp dp).
Proof.
  unfold encode_dp, encode_x.
  repeat (apply Forall_app; split); try apply be_bytes_bytes.
  unfold pad, is_byte. repeat constructor; lia.
Qed.

(** C8. The wire format of DPs.  A DP entry is [ITEM_SIZE] = 68 bytes:
    32 bytes of x, 24 of the distance, 8 of kIdx and 4 of padding;
    decoding the entry of a DP gives the DP back, and encoding that
    again gives the same 68 bytes.  A DP_BATCH frame of N entries has
    type 0x01, carries [4 + 68 N] in its LENGTH field and N in its COUNT
    field, has a payload of LENGTH bytes, and is [1 + 4 + 4 + 68 N]
    bytes long. *)
Theorem dp_wire_format (dp : DP) (dps : list DP) :
  well_formed dp ->
  4 + 68 * Z.of_nat (length dps) < 2 ^ 32 ->
  Z.of_nat (length (encode_dp dp)) = ITEM_SIZE /\ ITEM_SIZE = 68 /\
  ITEM_SIZE = 4 * ITEM_SIZE32 /\
  (length (encode_x (dp_x dp)) = 32 /\ length (be_bytes 24 (dp_dist dp)) = 24 /\
   length (be_bytes 8 (dp_kIdx dp)) = 8 /\ length pad = 4)%nat /\
  Forall is_byte (encode_dp dp) /\
  decode_dp (encode_dp dp) = Some dp /\
  (forall dp', decode_dp (encode_dp dp) = Some dp' -> encode_dp dp' = encode_dp dp) /\
  frame_type (encode_batch dps) = Some MSG_DP_BATCH /\
  frame_length (encode_batch dps) = 4 + 68 * Z.of_nat (length dps) /\
  frame_count (encode_batch dps) = Z.of_nat (length dps) /\
  Z.of_nat (length (batch_payload dps)) = frame_length (encode_batch dps) /\
  Z.of_nat (length (encode_batch dps)) = 1 + 4 + 4 + 68 * Z.of_nat (length dps).
Proof.
  intros Hdp Hn.
  assert (Hlen : frame_length (encode_batch dps) = 4 + 68 * Z.of_nat (length dps)).
  { unfold frame_length, encode_batch. cbn [app skipn]. rewrite drop_0.
    rewrite take_app_length' by lengths.
    rewrite of_be_be_bytes_small; rewrite length_batch_payload; [lia|].
    change (256 ^ Z.of_nat 4) with (2 ^ 32). lia. }
  split; [now rewrite length_encode_dp|]. split; [reflexivity|]. split; [reflexivity|].
  split; [now rewrite length_encode_x, !length_be_bytes|].
  split; [apply encode_dp_bytes|].
  split; [now apply decode_encode_dp|].
  split; [intros dp' Hd; rewrite decode_encode_dp in Hd by assumption; congruence|].
  split; [reflexivity|]. split; [exact Hlen|]. split; [|split].
  - unfold frame_count, encode_batch, batch_payload. cbn [app skipn].
    rewrite (drop_app_length' _ _ 4) by lengths.
    rewrite take_app_length' by lengths.
    apply of_be_be_bytes_small. change (256 ^ Z.of_nat 4) with (2 ^ 32). lia.
  - rewrite Hlen, length_batch_payload. lia.
  - unfold encode_batch. rewrite !length_app, length_be_bytes, length_batch_payload.
    cbn [length]. lia.
Qed.

Lemma dp_wire_format_witness :
  let dp := mkDP X 10 2 in
  let dps := [mkDP X 10 2; mkDP (X + 1) 20 3] in
  Z.of_nat (length (encode_dp dp)) = 68 /\
  decode_dp (encode_dp dp) = Some dp /\
  frame_length (encode_batch dps) = 140 /\
  Z.of_nat (length (encode_batch dps)) = 145.
Proof.
  cbv zeta.
  destruct (dp_wire_format (mkDP X 10 2) [mkDP X 10 2; mkDP (X + 1) 20 3])
    as (H1 & _ & _ & _ & _ & H2 & _ & _ & H3 & _ & _ & H4).
  - unfold well_formed, X. cbn [dp_x dp_dist dp_kIdx]. lia.
  - cbn [length]. lia.
  - repeat split; assumption.
Defined.

End WireFacts.

(** ** The herd of a DP on its way from the kangaroo to the store *)

Module HerdFacts.
Import DPQueue DPStore Wire Pipeline DPQueueFacts DPStoreFacts WireFacts.









Example herd_samples :
  herd_of 0 = TAME /\ herd_of 1 = WILD /\ herd_of 2 = TAME /\ herd_of 9 = WILD /\
  herd_of (2 ^ 64 - 1) = WILD.
Proof. repeat split. Qed.

End HerdFacts.


(** ** More about the queue: both definitions of [pop_batch], [push_batch],
    [empty] and [size] *)

Module DPQueueMore.
Import DPQueue DPQueueTerms DPQueueFacts.

(** *** [push_batch] and [push] *)

Lemma fold_push_queue (l : list ITEM) tid gid : forall s,
  queue (fold_left (fun acc dp => push dp tid gid acc) l s)
    = queue s ++ map (fun dp => mkDPITEM dp tid gid) l /\
  shutdown (fold_left (fun acc dp => push dp tid gid acc) l s) = shutdown s /\
  totalPopped (fold_left (fun acc dp => push dp tid gid acc) l s) = totalPopped s /\
  wrap64 (totalPushed (fold_left (fun acc dp => push dp tid gid acc) l s))
    = wrap64 (totalPushed s + Z.of_nat (length l)).
Proof.
  induction l as [|dp l IH]; intros s.
  - cbn. rewrite app_nil_r, Z.add_0_r. now repeat split.
  - cbn [fold_left]. destruct (IH (push dp tid gid s)) as (Hq & Hs & Hp & Ht).
    rewrite Hq, Hs, Hp, Ht. cbn [push queue shutdown totalPopped totalPushed map length].
    rewrite <- app_assoc. repeat split.
    rewrite wrap64_add_l. f_equal. lia.
Qed.

(** X1. A batch push is the same as pushing its elements one by one: the
    queue, the shutdown flag and both counters end up equal, for every
    batch (the empty one included) and every state. *)
Theorem push_batch_as_pushes (l : list ITEM) (tid gid : Z) (s : t) :
  push_batch l tid gid s = fold_left (fun acc dp => push dp tid gid acc) l s.
Proof.
  destruct l as [|dp l]; [reflexivity|].
  destruct (fold_push_queue (dp :: l) tid gid s) as (Hq & Hs & Hp & Ht).
  assert (Hpushed : totalPushed (fold_left (fun acc dp0 => push dp0 tid gid acc) (dp :: l) s)
                    = wrap64 (totalPushed s + Z.of_nat (length (dp :: l)))).
  { rewrite <- Ht. symmetry. cbn [fold_left]. clear.
    destruct l as [|a l _] using rev_ind.
    - cbn. apply wrap64_idem.
    - rewrite fold_left_app. cbn. apply wrap64_idem. }
  unfold push_batch. rewrite push_loop_app.
  destruct (fold_left _ (dp :: l) s) as [q sd p1 p2].
  cbn [queue shutdown totalPopped totalPushed] in *. now subst.
Qed.

(** *** What a call of [pop_batch] takes *)

Lemma bump_add a b p : bump a (bump b p) = bump (a + b) p.
Proof. unfold bump. now rewrite Nat.iter_add. Qed.

Lemma env_run_totalPopped es : forall s, totalPopped (env_run es s) = totalPopped s.
Proof.
  induction es as [|e es IH]; intros s; [reflexivity|].
  change (env_run (e :: es) s) with (env_run es (env_step e s)). rewrite IH.
  destruct e as [dp tid gid|l tid gid|]; try reflexivity.
  cbn. unfold push_batch. now destruct l.
Qed.

Lemma took_drain maxCount o s :
  exists k, took k o s (fst (drain maxCount o s)) (snd (drain maxCount o s)).
Proof.
  rewrite drain_spec. cbn [fst snd].
  exists (Nat.min (length (queue s)) (room maxCount o)). split.
  - rewrite fold_push_back_dps, length_app, length_map, length_take. lia.
  - reflexivity.
Qed.

Lemma took_env k o s o' s' es :
  took k o (env_run es s) o' s' -> took k o s o' s'.
Proof. unfold took. now rewrite env_run_totalPopped. Qed.

Lemma took_seq k1 k2 o s o1 s1 o2 s2 :
  took k1 o s o1 s1 -> took k2 o1 s1 o2 s2 -> took (k1 + k2) o s o2 s2.
Proof.
  intros [H1 H2] [H3 H4]. split; [lia|].
  rewrite H4, H2, bump_add. f_equal. lia.
Qed.

Lemma took_refl o s : took 0 o s o s.
Proof. split; [lia|reflexivity]. Qed.

Lemma batch_loop_took maxCount ws : forall o s n o' s' n',
  V2.batch_loop maxCount ws o s n = (o', s', n') -> exists k, took k o s o' s'.
Proof.
  induction ws as [|w ws IH]; intros o s n o' s' n' Hb; cbn [V2.batch_loop] in Hb.
  - destruct (_ && _); inversion Hb; subst; exists 0%nat; apply took_refl.
  - destruct (_ && _); [|inversion Hb; subst; exists 0%nat; apply took_refl].
    destruct (timedout w).
    + inversion Hb; subst. exists 0%nat. apply (took_env _ _ _ _ _ (during w)).
      apply took_refl.
    + destruct (took_drain maxCount o (env_run (during w) s)) as [k1 Hk1].
      apply took_env in Hk1.
      destruct (drain maxCount o (env_run (during w) s)) as [o2 s2]. cbn [fst snd] in Hk1.
      destruct (Z.of_nat (length (dps o2)) >=? maxCount).
      * inversion Hb; subst. now exists k1.
      * apply IH in Hb as [k2 Hk2]. exists (k1 + k2)%nat. eapply took_seq; eassumption.
Qed.

Lemma pop_batch_v1_took maxCount ws s :
  exists k, took k cleared s (out (fst (V1.pop_batch maxCount ws s)))
                 (snd (V1.pop_batch maxCount ws s)).
Proof.
  unfold V1.pop_batch.
  destruct (wait_first ws s 0) as [[res s1] n] eqn:Hw.
  apply wait_first_spec in Hw as (j & _ & -> & _).
  destruct res as [ws1|]; [|exists 0%nat; eapply took_env, took_refl].
  destruct (shutdown _ && empty _); [exists 0%nat; eapply took_env, took_refl|].
  destruct (took_drain maxCount cleared (env_run (flat_map during (take j ws)) s))
    as [k Hk].
  apply took_env in Hk. destruct (drain maxCount cleared _) as [o s2]. now exists k.
Qed.

Lemma pop_batch_v2_took maxCount ws s :
  exists k, took k cleared s (out (fst (V2.pop_batch maxCount ws s)))
                 (snd (V2.pop_batch maxCount ws s)).
Proof.
  unfold V2.pop_batch.
  destruct (wait_first ws s 0) as [[res s1] n] eqn:Hw.
  apply wait_first_spec in Hw as (j & _ & -> & _).
  destruct res as [ws1|]; [|exists 0%nat; eapply took_env, took_refl].
  destruct (shutdown _ && empty _); [exists 0%nat; eapply took_env, took_refl|].
  destruct (took_drain maxCount cleared (env_run (flat_map during (take j ws)) s))
    as [k Hk].
  apply took_env in Hk. destruct (drain maxCount cleared _) as [o s2]. cbn [fst snd] in Hk.
  destruct (V2.batch_loop maxCount ws1 o s2 0) as [[o3 s3] m] eqn:Hb.
  apply batch_loop_took in Hb as [k2 Hk2].
  exists (k + k2)%nat. eapply took_seq; eassumption.
Qed.

(** X2. Both definitions of [pop_batch] count what they hand out:
    [totalPopped] is incremented once for every item put into the output
    vectors and not otherwise, so it advances by the length of the
    returned batch (in the 64-bit arithmetic of the counter). *)
Theorem pop_batch_counts (maxCount : Z) (ws : list wake) (s : t) :
  (totalPopped (snd (V1.pop_batch maxCount ws s))
     = bump (length (dps (out (fst (V1.pop_batch maxCount ws s))))) (totalPopped s) /\
   wrap64 (totalPopped (snd (V1.pop_batch maxCount ws s)))
     = wrap64 (totalPopped s
               + Z.of_nat (length (dps (out (fst (V1.pop_batch maxCount ws s))))))) /\
  (totalPopped (snd (V2.pop_batch maxCount ws s))
     = bump (length (dps (out (fst (V2.pop_batch maxCount ws s))))) (totalPopped s) /\
   wrap64 (totalPopped (snd (V2.pop_batch maxCount ws s)))
     = wrap64 (totalPopped s
               + Z.of_nat (length (dps (out (fst (V2.pop_batch maxCount ws s))))))).
Proof.
  destruct (pop_batch_v1_took maxCount ws s) as (k1 & Hl1 & Hp1).
  destruct (pop_batch_v2_took maxCount ws s) as (k2 & Hl2 & Hp2).
  cbn [cleared dps length Nat.add] in Hl1, Hl2.
  rewrite Hl1, Hl2, Hp1, Hp2, !bump_wrap. now repeat split.
Qed.

Lemma ret_v1 maxCount ws s :
  ret (fst (V1.pop_batch maxCount ws s))
    = negb (match dps (out (fst (V1.pop_batch maxCount ws s))) with
            | [] => true | _ => false end).
Proof.
  unfold V1.pop_batch. destruct (wait_first ws s 0) as [[[ws1|] s1] n]; [|reflexivity].
  destruct (shutdown s1 && empty s1); [reflexivity|].
  now destruct (drain maxCount cleared s1).
Qed.

Lemma ret_v2 maxCount ws s :
  ret (fst (V2.pop_batch maxCount ws s))
    = negb (match dps (out (fst (V2.pop_batch maxCount ws s))) with
            | [] => true | _ => false end).
Proof.
  unfold V2.pop_batch. destruct (wait_first ws s 0) as [[[ws1|] s1] n]; [|reflexivity].
  destruct (shutdown s1 && empty s1); [reflexivity|].
  destruct (drain maxCount cleared s1) as [o s2].
  now destruct (V2.batch_loop maxCount ws1 o s2 0) as [[o3 s3] m].
Qed.

Lemma aligned_nil o : aligned o -> dps o = [] -> o = cleared.
Proof.
  intros [H1 H2] Hd. destruct o as [ds ts gs]. cbn in *. subst ds. cbn in *.
  destruct ts; [|discriminate]. destruct gs; [|discriminate]. reflexivity.
Qed.

(** X3. A call of the second [pop_batch] that returns [false] has taken
    nothing: the three vectors are empty, [totalPopped] is what it was,
    and the queue holds what it held followed by everything the producers
    pushed while the call was waiting.  No DP is lost to a call that
    reports no data. *)
Theorem pop_batch_false_takes_nothing (maxCount : Z) (ws : list wake) (s : t) :
  ret (fst (V2.pop_batch maxCount ws s)) = false ->
  out (fst (V2.pop_batch maxCount ws s)) = cleared /\
  totalPopped (snd (V2.pop_batch maxCount ws s)) = totalPopped s /\
  queue (snd (V2.pop_batch maxCount ws s))
    = queue s ++ flat_map pushed_by (arrivals ws (fst (V2.pop_batch maxCount ws s))).
Proof.
  intros Hret. rewrite ret_v2 in Hret.
  destruct (pop_batch_v2_moved maxCount ws s) as (Hal & Hfifo & _).
  destruct (pop_batch_v2_took maxCount ws s) as (k & Hl & Hp).
  assert (Hd : dps (out (fst (V2.pop_batch maxCount ws s))) = [])
    by (destruct (dps (out (fst (V2.pop_batch maxCount ws s)))); [reflexivity|discriminate]).
  pose proof (aligned_nil _ Hal Hd) as Hout.
  rewrite Hd in Hl. cbn in Hl. assert (k = 0%nat) by lia. subst k.
  rewrite Hout in Hfifo. repeat split; assumption.
Qed.

Lemma pop_batch_false_takes_nothing_witness :
  let s := push (it 1) 0 0 init in
  ret (fst (V2.pop_batch 0 [] s)) = false /\
  out (fst (V2.pop_batch 0 [] s)) = cleared /\
  totalPopped (snd (V2.pop_batch 0 [] s)) = totalPopped s /\
  queue (snd (V2.pop_batch 0 [] s))
    = queue s ++ flat_map pushed_by (arrivals [] (fst (V2.pop_batch 0 [] s))).
Proof.
  cbv zeta. split; [reflexivity|].
  exact (pop_batch_false_takes_nothing 0 [] (push (it 1) 0 0 init) eq_refl).
Defined.

(** X4. Asked for no items ([maxCount] = 0) either definition of
    [pop_batch] returns [false] with empty vectors, however many items
    the queue holds, and the second definition does not enter its
    batching loop: the two calls are equal. *)
Theorem pop_batch_zero (maxCount : Z) (ws : list wake) (s : t) :
  maxCount <= 0 ->
  V2.pop_batch maxCount ws s = V1.pop_batch maxCount ws s /\
  ret (fst (V1.pop_batch maxCount ws s)) = false /\
  out (fst (V1.pop_batch maxCount ws s)) = cleared.
Proof.
  intros Hmc.
  assert (Heq : V2.pop_batch maxCount ws s = V1.pop_batch maxCount ws s).
  { apply pop_batch_v2_as_v1. intros s1 _.
    apply andb_false_intro1, Z.ltb_ge. lia. }
  assert (Hd : dps (out (fst (V1.pop_batch maxCount ws s))) = []).
  { unfold V1.pop_batch. destruct (wait_first ws s 0) as [[[ws1|] s1] n]; [|reflexivity].
    destruct (shutdown s1 && empty s1); [reflexivity|].
    pose proof (drain_cleared_length maxCount s1) as Hlen.
    destruct (drain maxCount cleared s1) as [o s2]. cbn [fst out] in *.
    destruct (dps o); [reflexivity|]. cbn [length] in Hlen. lia. }
  split; [exact Heq|]. split.
  - rewrite ret_v1, Hd. reflexivity.
  - apply aligned_nil; [|exact Hd]. apply (pop_batch_v1_moved maxCount ws s).
Qed.

Lemma pop_batch_zero_witness :
  let s := push_batch [it 1; it 2] 0 0 init in
  V2.pop_batch 0 [] s = V1.pop_batch 0 [] s /\
  ret (fst (V1.pop_batch 0 [] s)) = false /\
  out (fst (V1.pop_batch 0 [] s)) = cleared.
Proof.
  exact (pop_batch_zero 0 [] (push_batch [it 1; it 2] 0 0 init) ltac:(lia)).
Defined.

(** *** Calls that find nothing, calls that find something *)

Lemma wait_first_quiet ws : forall s n,
  empty s = true -> shutdown s = false -> quiet ws ->
  exists k, (1 <= k <= S (length ws))%nat /\ wait_first ws s n = (None, s, (n + k)%nat).
Proof.
  induction ws as [|w ws IH]; intros s n He Hs Hq; cbn [wait_first]; rewrite He, Hs.
  - exists 1%nat. cbn. split; [lia|]. now rewrite Nat.add_1_r.
  - inversion Hq as [|w' ws' Hw Hws]; subst. rewrite Hw. cbn [andb negb env_run fold_left].
    destruct (timedout w).
    + exists 1%nat. cbn [length]. split; [lia|]. now rewrite Nat.add_1_r.
    + destruct (IH s (S n) He Hs Hws) as (k & Hk & ->).
      exists (S k). cbn [length]. split; [lia|]. now rewrite Nat.add_succ_r.
Qed.

(** X5. On an empty queue, with shutdown not requested and no producer
    active, either definition of [pop_batch] returns [false] with empty
    vectors and leaves the queue object exactly as it found it, after at
    least one wait and whatever the number of spurious wake-ups. *)
Theorem pop_batch_idle (maxCount : Z) (ws : list wake) (s : t) :
  empty s = true -> shutdown s = false -> quiet ws ->
  exists k, (1 <= k <= S (length ws))%nat /\
    V1.pop_batch maxCount ws s = (mkResult false cleared (repeat FirstWait k), s) /\
    V2.pop_batch maxCount ws s = (mkResult false cleared (repeat FirstWait k), s).
Proof.
  intros He Hs Hq. destruct (wait_first_quiet ws s 0 He Hs Hq) as (k & Hk & Hw).
  exists k. split; [exact Hk|]. unfold V1.pop_batch, V2.pop_batch. rewrite Hw.
  now split.
Qed.

Lemma pop_batch_idle_witness :
  exists k, (1 <= k <= 3)%nat /\
    V1.pop_batch 8 [mkWake [] false; mkWake [] true] init
      = (mkResult false cleared (repeat FirstWait k), init) /\
    V2.pop_batch 8 [mkWake [] false; mkWake [] true] init
      = (mkResult false cleared (repeat FirstWait k), init).
Proof.
  apply (pop_batch_idle 8 [mkWake [] false; mkWake [] true] init eq_refl eq_refl).
  repeat constructor.
Defined.

Lemma v1_hand_out (maxCount : Z) (ws : list wake) (s : t) :
  empty s && negb (shutdown s) = false ->
  V1.pop_batch maxCount ws s
    = hand_out (Nat.min (length (queue s)) (Z.to_nat maxCount)) s.
Proof.
  intros Hc. unfold V1.pop_batch. rewrite wait_first_skip by assumption.
  destruct s as [q sd p1 p2]. destruct q as [|a q].
  - cbn in Hc. destruct sd; [|discriminate]. reflexivity.
  - cbn [shutdown empty queue]. rewrite andb_false_r. rewrite drain_spec.
    cbv beta iota zeta. unfold hand_out, room.
    cbn [queue shutdown totalPushed totalPopped dps cleared length].
    replace (Z.to_nat (maxCount - Z.of_nat 0)) with (Z.to_nat maxCount) by lia.
    rewrite fold_push_back_cleared. cbn [dps repeat].
    now destruct (take _ (a :: q)).
Qed.

(** X6. The first definition of [pop_batch] never waits when the queue
    holds items or shutdown has been requested: it hands out the first
    [min (size, maxCount)] items in queue order, with their thread and
    GPU ids, and leaves the rest queued. *)
Theorem pop_batch_v1_immediate (maxCount : Z) (ws : list wake) (s : t) :
  empty s && negb (shutdown s) = false ->
  V1.pop_batch maxCount ws s
    = hand_out (Nat.min (length (queue s)) (Z.to_nat maxCount)) s.
Proof. apply v1_hand_out. Qed.

Lemma pop_batch_v1_immediate_witness :
  V1.pop_batch 2 [] (push_batch [it 1; it 2; it 3] 4 1 init)
    = (mkResult true (mkVecs [it 1; it 2] [4; 4] [1; 1]) [],
       {| queue := [mkDPITEM (it 3) 4 1]; shutdown := false;
          totalPushed := 3; totalPopped := 2 |}).
Proof.
  exact (pop_batch_v1_immediate 2 [] (push_batch [it 1; it 2; it 3] 4 1 init) eq_refl).
Defined.

(** *** Pushing a batch and popping it again *)

Lemma map_const_replicate {A B} (l : list A) (b : B) :
  map (fun _ => b) l = replicate (length l) b.
Proof. induction l as [|a l IH]; [reflexivity|]. cbn. now rewrite IH. Qed.

Lemma vecs_of_batch (l : list ITEM) tid gid :
  vecs_of (map (fun dp => mkDPITEM dp tid gid) l)
    = mkVecs l (replicate (length l) tid) (replicate (length l) gid).
Proof.
  unfold vecs_of. rewrite !map_map. cbn [dp threadId gpuId].
  rewrite map_id, !map_const_replicate. reflexivity.
Qed.

(** X7. Round trip through the first definition: a non-empty batch pushed
    into an empty queue and popped with [maxCount] at least its size comes
    back whole and in order, every item with the thread and GPU id of the
    push, without any wait; the queue is empty again and both counters
    have advanced by the size of the batch. *)
Theorem push_pop_round_trip_v1 (l : list ITEM) (tid gid maxCount : Z)
    (ws : list wake) (s : t) :
  queue s = [] -> l <> [] -> Z.of_nat (length l) <= maxCount ->
  V1.pop_batch maxCount ws (push_batch l tid gid s)
    = (mkResult true (mkVecs l (replicate (length l) tid) (replicate (length l) gid)) [],
       {| queue := []; shutdown := shutdown s;
          totalPushed := wrap64 (totalPushed s + Z.of_nat (length l));
          totalPopped := bump (length l) (totalPopped s) |}).
Proof.
  intros Hq Hl Hmc.
  assert (Hs' : push_batch l tid gid s
                = {| queue := map (fun dp => mkDPITEM dp tid gid) l;
                     shutdown := shutdown s;
                     totalPushed := wrap64 (totalPushed s + Z.of_nat (length l));
                     totalPopped := totalPopped s |}).
  { unfold push_batch. destruct l as [|a l]; [contradiction|].
    now rewrite push_loop_app, Hq. }
  rewrite Hs'. rewrite v1_hand_out.
  - unfold hand_out. cbn [queue shutdown totalPushed totalPopped].
    rewrite length_map.
    replace (Nat.min (length l) (Z.to_nat maxCount)) with (length l) by lia.
    rewrite take_ge, drop_ge by (rewrite length_map; lia).
    change (mkVecs (map dp ?q) (map threadId ?q) (map gpuId ?q)) with (vecs_of q).
    rewrite vecs_of_batch.
    destruct l as [|a l]; [contradiction|reflexivity].
  - destruct l as [|a l]; [contradiction|reflexivity].
Qed.

Lemma push_pop_round_trip_v1_witness :
  V1.pop_batch 1000 [] (push_batch [it 7; it 8] 3 0 init)
    = (mkResult true (mkVecs [it 7; it 8] [3; 3] [0; 0]) [],
       {| queue := []; shutdown := false; totalPushed := 2; totalPopped := 2 |}).
Proof.
  exact (push_pop_round_trip_v1 [it 7; it 8] 3 0 1000 [] init eq_refl
           ltac:(discriminate) ltac:(cbn; lia)).
Defined.

(** X8. Round trip through the second definition when no wake-up comes:
    the batch pushed into an empty queue comes back whole and in order.
    A batch that fills [maxCount], or any batch once shutdown has been
    requested, is returned without a wait; a smaller one costs exactly one
    batching wait of 50 ms, which runs into its deadline. *)
Theorem push_pop_round_trip_v2 (l : list ITEM) (tid gid maxCount : Z) (s : t) :
  queue s = [] -> l <> [] -> Z.of_nat (length l) <= maxCount ->
  V2.pop_batch maxCount [] (push_batch l tid gid s)
    = (mkResult true (mkVecs l (replicate (length l) tid) (replicate (length l) gid))
         (if (Z.of_nat (length l) <? maxCount) && negb (shutdown s)
          then [BatchWait 50] else []),
       {| queue := []; shutdown := shutdown s;
          totalPushed := wrap64 (totalPushed s + Z.of_nat (length l));
          totalPopped := bump (length l) (totalPopped s) |}).
Proof.
  intros Hq Hl Hmc.
  assert (Hs' : push_batch l tid gid s
                = {| queue := map (fun dp => mkDPITEM dp tid gid) l;
                     shutdown := shutdown s;
                     totalPushed := wrap64 (totalPushed s + Z.of_nat (length l));
                     totalPopped := totalPopped s |}).
  { unfold push_batch. destruct l as [|a l]; [contradiction|].
    now rewrite push_loop_app, Hq. }
  rewrite Hs'. unfold V2.pop_batch.
  assert (He : forall sd p1 p2,
             empty {| queue := map (fun dp => mkDPITEM dp tid gid) l; shutdown := sd;
                      totalPushed := p1; totalPopped := p2 |} = false)
    by (intros; destruct l; [contradiction|reflexivity]).
  rewrite wait_first_skip by (now rewrite He).
  rewrite He, andb_false_r. rewrite drain_spec. cbv beta iota zeta.
  unfold room. cbn [queue shutdown totalPushed totalPopped dps cleared length].
  rewrite length_map.
  replace (Nat.min (length l) (Z.to_nat (maxCount - Z.of_nat 0))) with (length l) by lia.
  rewrite take_ge, drop_ge by (rewrite length_map; lia).
  rewrite fold_push_back_cleared.
  change (mkVecs (map dp ?q) (map threadId ?q) (map gpuId ?q)) with (vecs_of q).
  rewrite vecs_of_batch. cbn [V2.batch_loop dps shutdown].
  destruct ((Z.of_nat (length l) <? maxCount) && negb (shutdown s));
    (destruct l as [|a l]; [contradiction|reflexivity]).
Qed.

Lemma push_pop_round_trip_v2_witness :
  V2.pop_batch 1000 [] (push_batch [it 7; it 8] 3 0 init)
    = (mkResult true (mkVecs [it 7; it 8] [3; 3] [0; 0]) [BatchWait 50],
       {| queue := []; shutdown := false; totalPushed := 2; totalPopped := 2 |}).
Proof.
  exact (push_pop_round_trip_v2 [it 7; it 8] 3 0 1000 init eq_refl
           ltac:(discriminate) ltac:(cbn; lia)).
Defined.

(** *** [empty] and [size] over a run *)

(** X9. Over any run that starts from a fresh queue, [empty()] is true
    exactly when every item pushed so far has been handed out by
    [pop_batch], and [size()] is the number of items pushed minus the
    number handed out. *)
Theorem empty_iff_all_popped (ops : list op) :
  (empty (fst (run V2.pop_batch ops init)) = true <->
   popped (snd (run V2.pop_batch ops init)) = pushed (snd (run V2.pop_batch ops init))) /\
  size (fst (run V2.pop_batch ops init))
    = Z.of_nat (length (pushed (snd (run V2.pop_batch ops init))))
      - Z.of_nat (length (popped (snd (run V2.pop_batch ops init)))).
Proof.
  pose proof (run_in_order_v2 ops) as H. unfold in_order in H.
  destruct (run V2.pop_batch ops init) as [s l]. cbn [fst snd] in *.
  unfold empty, size. split.
  - split.
    + intros He. destruct (queue s); [|discriminate]. now rewrite app_nil_r in H.
    + intros Heq. rewrite <- Heq in H.
      apply (f_equal (@length _)) in H. rewrite length_app in H.
      destruct (queue s); [reflexivity|cbn in H; lia].
  - rewrite <- H, length_app. lia.
Qed.

(** *** The first definition: order *)

(** X10. The first definition of the class is FIFO as well: over any run
    of pushes, batch pushes, shutdown requests and calls of its
    [pop_batch], the items handed out followed by the items still queued
    are the items pushed, in the order of the pushes, and the items of
    each producer come out in the order it pushed them. *)
Theorem fifo_per_producer_v1 (ops : list op) (tid gid : Z) :
  popped (snd (run V1.pop_batch ops init)) ++ queue (fst (run V1.pop_batch ops init))
    = pushed (snd (run V1.pop_batch ops init)) /\
  from tid gid (popped (snd (run V1.pop_batch ops init)))
    `prefix_of` from tid gid (pushed (snd (run V1.pop_batch ops init))).
Proof.
  assert (H : in_order (run V1.pop_batch ops init))
    by (apply fold_run_in_order; [apply pop_batch_v1_moved|reflexivity]).
  split; [exact H|]. unfold in_order in H. rewrite <- H. unfold from.
  rewrite filter_app. now apply prefix_app_r.
Qed.

(** *** The two definitions: what the batching window adds *)

Lemma items_of_drain maxCount o s :
  aligned o ->
  exists l, items_of (fst (drain maxCount o s)) = items_of o ++ l.
Proof.
  intros Ho. rewrite drain_spec. cbn [fst]. eexists. now apply items_of_fold.
Qed.

Lemma batch_loop_appends maxCount ws : forall o s n o' s' n',
  V2.batch_loop maxCount ws o s n = (o', s', n') -> aligned o ->
  exists l k, items_of o' = items_of o ++ l /\ n' = (n + k)%nat /\ aligned o'.
Proof.
  induction ws as [|w ws IH]; intros o s n o' s' n' Hb Ho; cbn [V2.batch_loop] in Hb.
  - destruct (_ && _); inversion Hb; subst.
    + exists [], 1%nat. rewrite app_nil_r. repeat split; [lia|apply Ho..].
    + exists [], 0%nat. rewrite app_nil_r. repeat split; [lia|apply Ho..].
  - destruct (_ && _).
    2:{ inversion Hb; subst. exists [], 0%nat. rewrite app_nil_r.
        repeat split; [lia|apply Ho..]. }
    destruct (timedout w).
    + inversion Hb; subst. exists [], 1%nat. rewrite app_nil_r.
      repeat split; [lia|apply Ho..].
    + destruct (items_of_drain maxCount o (env_run (during w) s) Ho) as [l1 Hl1].
      pose proof (drain_aligned maxCount o (env_run (during w) s) Ho) as Ha.
      destruct (drain maxCount o (env_run (during w) s)) as [o2 s2]. cbn [fst] in *.
      destruct (Z.of_nat (length (dps o2)) >=? maxCount).
      * inversion Hb; subst. exists l1, 1%nat. repeat split; [assumption|lia|apply Ha..].
      * apply IH in Hb as (l2 & k & Hl2 & -> & Ha'); [|assumption].
        exists (l1 ++ l2), (S k). rewrite Hl2, Hl1, <- app_assoc.
        repeat split; [lia|apply Ha'..].
Qed.

Lemma length_items_of o : aligned o -> length (items_of o) = length (dps o).
Proof.
  intros [H1 H2]. unfold items_of. rewrite length_zip_with, length_zip_with. lia.
Qed.

(** X11. On the same state and the same schedule the batch of the first
    definition is a prefix of the batch of the second, and so are the
    waits: the batching window of the second definition only ever adds
    items and waits after what the first definition does.  In particular
    the second returns [true] whenever the first does. *)
Theorem batching_extends_v1 (maxCount : Z) (ws : list wake) (s : t) :
  items_of (out (fst (V1.pop_batch maxCount ws s)))
    `prefix_of` items_of (out (fst (V2.pop_batch maxCount ws s))) /\
  waits (fst (V1.pop_batch maxCount ws s))
    `prefix_of` waits (fst (V2.pop_batch maxCount ws s)) /\
  (ret (fst (V1.pop_batch maxCount ws s)) = true ->
   ret (fst (V2.pop_batch maxCount ws s)) = true).
Proof.
  pose proof (ret_v1 maxCount ws s) as Hr1. pose proof (ret_v2 maxCount ws s) as Hr2.
  pose proof (pop_batch_v1_moved maxCount ws s) as (Ha1 & _).
  pose proof (pop_batch_v2_moved maxCount ws s) as (Ha2 & _).
  assert (Hpre : items_of (out (fst (V1.pop_batch maxCount ws s)))
                   `prefix_of` items_of (out (fst (V2.pop_batch maxCount ws s))) /\
                 waits (fst (V1.pop_batch maxCount ws s))
                   `prefix_of` waits (fst (V2.pop_batch maxCount ws s))).
  { unfold V1.pop_batch, V2.pop_batch.
    destruct (wait_first ws s 0) as [[[ws1|] s1] n]; [|now split].
    destruct (shutdown s1 && empty s1); [now split|].
    pose proof (drain_aligned maxCount cleared s1 aligned_cleared) as Ha.
    destruct (drain maxCount cleared s1) as [o s2]. cbn [fst] in Ha.
    destruct (V2.batch_loop maxCount ws1 o s2 0) as [[o3 s3] m] eqn:Hb.
    apply batch_loop_appends in Hb as (l & k & Hl & _ & _); [|assumption].
    cbn [fst out waits]. split.
    - rewrite Hl. now apply prefix_app_r.
    - now apply prefix_app_r. }
  destruct Hpre as [Hitems Hwaits]. split; [exact Hitems|]. split; [exact Hwaits|].
  rewrite Hr1, Hr2. apply prefix_length in Hitems.
  rewrite !length_items_of in Hitems by assumption.
  destruct (dps (out (fst (V1.pop_batch maxCount ws s)))); [discriminate|].
  destruct (dps (out (fst (V2.pop_batch maxCount ws s)))); [cbn in Hitems; lia|reflexivity].
Qed.

(** *** A consumer blocked in its first wait *)

(** X12. A call blocked on an empty queue that is woken by
    [requestShutdown] before any item arrives returns [false] with empty
    vectors after that one wait, in either definition; it does not go back
    to sleep. *)
Theorem woken_by_shutdown (maxCount : Z) (w : wake) (ws : list wake) (s : t) :
  empty s = true -> shutdown s = false ->
  timedout w = false ->
  shutdown (env_run (during w) s) = true ->
  empty (env_run (during w) s) = true ->
  V1.pop_batch maxCount (w :: ws) s
    = (mkResult false cleared [FirstWait], env_run (during w) s) /\
  V2.pop_batch maxCount (w :: ws) s
    = (mkResult false cleared [FirstWait], env_run (during w) s).
Proof.
  intros He Hs Ht Hs1 He1. unfold V1.pop_batch, V2.pop_batch.
  cbn [wait_first]. rewrite He, Hs, Ht. cbn [andb negb].
  rewrite wait_first_skip by (rewrite Hs1; apply andb_false_r).
  rewrite Hs1, He1. now split.
Qed.

Lemma woken_by_shutdown_witness :
  V1.pop_batch 8 [mkWake [EnvShutdown] false] init
    = (mkResult false cleared [FirstWait], fst (requestShutdown init)) /\
  V2.pop_batch 8 [mkWake [EnvShutdown] false] init
    = (mkResult false cleared [FirstWait], fst (requestShutdown init)).
Proof.
  exact (woken_by_shutdown 8 (mkWake [EnvShutdown] false) [] init
           eq_refl eq_refl eq_refl eq_refl eq_refl).
Defined.

(** X13. When the wait for the first item comes back with [ETIMEDOUT],
    either definition returns [false] without looking at the queue: items
    pushed during that wait are not in the (empty) vectors, they stay at
    the front of the queue, and the next call of the first definition
    hands them out at once. *)
Theorem timeout_leaves_arrivals (maxCount : Z) (w : wake) (ws ws2 : list wake) (s : t) :
  empty s = true -> shutdown s = false ->
  timedout w = true ->
  V1.pop_batch maxCount (w :: ws) s
    = (mkResult false cleared [FirstWait], env_run (during w) s) /\
  V2.pop_batch maxCount (w :: ws) s
    = (mkResult false cleared [FirstWait], env_run (during w) s) /\
  queue (env_run (during w) s) = flat_map pushed_by (during w) /\
  (flat_map pushed_by (during w) <> [] ->
   V1.pop_batch maxCount ws2 (env_run (during w) s)
     = hand_out (Nat.min (length (flat_map pushed_by (during w))) (Z.to_nat maxCount))
                (env_run (during w) s)).
Proof.
  intros He Hs Ht.
  assert (Hq : queue (env_run (during w) s) = flat_map pushed_by (during w)).
  { rewrite env_run_queue. unfold empty in He. now destruct (queue s). }
  unfold V1.pop_batch at 1, V2.pop_batch.
  cbn [wait_first]. rewrite He, Hs, Ht. cbn [andb negb].
  split; [reflexivity|]. split; [reflexivity|]. split; [exact Hq|].
  intros Hne. rewrite v1_hand_out; [now rewrite Hq|].
  unfold empty. rewrite Hq. now destruct (flat_map pushed_by (during w)).
Qed.

Lemma timeout_leaves_arrivals_witness :
  V1.pop_batch 8 [mkWake [EnvPush (it 1) 0 0] true] init
    = (mkResult false cleared [FirstWait], push (it 1) 0 0 init) /\
  V2.pop_batch 8 [mkWake [EnvPush (it 1) 0 0] true] init
    = (mkResult false cleared [FirstWait], push (it 1) 0 0 init).
Proof.
  destruct (timeout_leaves_arrivals 8 (mkWake [EnvPush (it 1) 0 0] true) [] [] init
              eq_refl eq_refl eq_refl) as (H1 & H2 & _).
  split; [exact H1|exact H2].
Defined.

(** *** Draining after shutdown, and the size of a batch *)

Lemma shutdown_drains_queue_witness :
  let s := fst (requestShutdown (push_batch [it 1; it 2; it 3] 0 0 init)) in
  let sl := fold_left (run_op V2.pop_batch)
              (map (fun c => PopBatch (fst c) (snd c)) [(2, []); (2, []); (5, [])])
              (s, mkLog [] []) in
  queue (fst sl) = [] /\
  popped (snd sl) = [mkDPITEM (it 1) 0 0; mkDPITEM (it 2) 0 0; mkDPITEM (it 3) 0 0] /\
  shutdown (fst sl) = true.
Proof.
  apply (shutdown_drains_queue [(2, []); (2, []); (5, [])]
           (fst (requestShutdown (push_batch [it 1; it 2; it 3] 0 0 init)))
           (mkLog [] [])).
  - reflexivity.
  - repeat constructor.
  - cbn. lia.
Defined.

(** X15. Neither definition of [pop_batch] ever returns more than
    [maxCount] items, and the three output vectors always have the same
    length, whatever the state and the schedule of wake-ups. *)
Theorem pop_batch_bounded (maxCount : Z) (ws : list wake) (s : t) :
  (aligned (out (fst (V1.pop_batch maxCount ws s))) /\
   (length (dps (out (fst (V1.pop_batch maxCount ws s)))) <= Z.to_nat maxCount)%nat) /\
  (aligned (out (fst (V2.pop_batch maxCount ws s))) /\
   (length (dps (out (fst (V2.pop_batch maxCount ws s)))) <= Z.to_nat maxCount)%nat).
Proof.
  assert (H1 : (length (dps (out (fst (V1.pop_batch maxCount ws s))))
                <= Z.to_nat maxCount)%nat).
  { unfold V1.pop_batch. destruct (wait_first ws s 0) as [[[ws1|] s1] n]; [|cbn; lia].
    destruct (shutdown s1 && empty s1); [cbn; lia|].
    pose proof (drain_cleared_length maxCount s1) as Hlen.
    destruct (drain maxCount cleared s1) as [o s2]. cbn [fst out] in *. lia. }
  split; [split; [apply (pop_batch_v1_moved maxCount ws s)|exact H1]|].
  split; [apply (pop_batch_v2_moved maxCount ws s)|].
  destruct (Z.le_gt_cases maxCount 0) as [Hle|Hpos].
  - destruct (pop_batch_v2_as_v1 maxCount ws s) as []; [|exact H1].
    intros s1 _. apply andb_false_intro1, Z.ltb_ge. lia.
  - unfold V2.pop_batch. destruct (wait_first ws s 0) as [[[ws1|] s1] n]; [|cbn; lia].
    destruct (shutdown s1 && empty s1); [cbn; lia|].
    pose proof (drain_length maxCount cleared s1 ltac:(cbn; lia)) as [Hle _].
    destruct (drain maxCount cleared s1) as [o s2]. cbn [fst] in Hle.
    destruct (V2.batch_loop maxCount ws1 o s2 0) as [[o3 s3] m] eqn:Hb.
    apply batch_loop_exit in Hb as (Hle3 & _); [|assumption].
    cbn [fst out]. lia.
Qed.

End DPQueueMore.
